(** * CSS tutor MCP server: knowledge store, capability registry, handlers

    A shallow embedding of [src/resources/index.ts], [src/tools/index.ts],
    [src/prompts/index.ts] and [src/index.ts], together with the parts of
    the JavaScript run time the program leans on ([JSON.parse],
    [JSON.stringify], zod schemas, object spread), and the properties of
    the specification checked against it. *)

From Stdlib Require Import List NArith Bool String Ascii Lia.
Import ListNotations.
Local Open Scope N_scope.
Local Open Scope list_scope.

Set Implicit Arguments.
Set Warnings "-register-all".

(** ** Text

    A JavaScript string is a sequence of UTF-16 code units.  File contents
    are taken as the text [fs.readFile(_, 'utf-8')] decodes. *)

Definition char := N.
Definition text := list char.

(** [js "abc"] is the text of an ASCII literal of the source. *)
Definition js (s : string) : text :=
  List.map N_of_ascii (list_ascii_of_string s).

Fixpoint text_eqb (a b : text) : bool :=
  match a, b with
  | [], [] => true
  | x :: a', y :: b' => (x =? y) && text_eqb a' b'
  | _, _ => false
  end.

Fixpoint join (sep : text) (parts : list text) : text :=
  match parts with
  | [] => []
  | [p] => p
  | p :: rest => p ++ sep ++ join sep rest
  end.

(** ** JSON values

    The values [JSON.parse] can produce.  A number is given by a literal
    that writes it, the one it was read from, and stands for the double
    nearest to that literal; two literals can give the same number.  No
    field of this program's schemas is numeric and the program serializes
    no number, so of a number only whether it is zero is ever looked at
    ([zero_number]). *)

Inductive json : Type :=
| JNull
| JBool (b : bool)
| JNum (literal : text)
| JStr (s : text)
| JArr (items : list json)
| JObj (props : list (text * json)).

(** An object is its own properties in the order [Object.keys] lists them. *)
Definition obj := list (text * json).

(** [undefined] is [None]. *)
Definition value := option json.

(** *** Decimal index strings

    A property key is an array index when it is the canonical decimal
    string of an integer below 2^32 - 1; such keys are enumerated first,
    in numeric order. *)

Definition digit_char (d : N) : char := 48 + d.

Fixpoint to_dec_fuel (fuel : nat) (n : N) (acc : text) : text :=
  match fuel with
  | O => acc
  | S f =>
      let acc' := digit_char (n mod 10) :: acc in
      if n / 10 =? 0 then acc' else to_dec_fuel f (n / 10) acc'
  end.

(** [ToString] of a non-negative integer. *)
Definition to_dec (n : N) : text := to_dec_fuel (S (N.to_nat (N.log2 n))) n [].

Definition is_digit (c : char) : bool := (48 <=? c) && (c <=? 57).

Fixpoint dec_value_from (acc : N) (t : text) : option N :=
  match t with
  | [] => Some acc
  | c :: r => if is_digit c then dec_value_from (acc * 10 + (c - 48)) r else None
  end.

Definition array_index (k : text) : option N :=
  match k with
  | [] => None
  | _ =>
      match dec_value_from 0 k with
      | Some n => if text_eqb (to_dec n) k && (n <? 4294967295) then Some n else None
      | None => None
      end
  end.

(** *** Own properties *)

Fixpoint lookup (k : text) (o : obj) : value :=
  match o with
  | [] => None
  | (k', v) :: r => if text_eqb k k' then Some v else lookup k r
  end.

Fixpoint has_key (k : text) (o : obj) : bool :=
  match o with
  | [] => false
  | (k', _) :: r => text_eqb k k' || has_key k r
  end.

Fixpoint replace (k : text) (v : json) (o : obj) : obj :=
  match o with
  | [] => []
  | (k', v') :: r =>
      if text_eqb k k' then (k', v) :: r else (k', v') :: replace k v r
  end.

(** A new array-index key goes before the first index key that is larger
    and before every other key. *)
Fixpoint insert_index (n : N) (k : text) (v : json) (o : obj) : obj :=
  match o with
  | [] => [(k, v)]
  | (k', v') :: r =>
      match array_index k' with
      | Some m => if n <? m then (k, v) :: o else (k', v') :: insert_index n k v r
      | None => (k, v) :: o
      end
  end.

(** [o[k] = v] on a plain object (CreateDataProperty): an existing key
    keeps its place, a new one is created. *)
Definition obj_set (k : text) (v : json) (o : obj) : obj :=
  if has_key k o then replace k v o
  else match array_index k with
       | Some n => insert_index n k v o
       | None => o ++ [(k, v)]
       end.

(** [{...o}]: the own properties copied one by one onto a fresh object. *)
Definition spread (o : obj) : obj :=
  fold_left (fun acc kv => obj_set (fst kv) (snd kv) acc) o [].


(** ** JSON.stringify *)

Definition hex_digit (d : N) : char := if d <? 10 then 48 + d else 87 + d.

(** [UnicodeEscape]: a backslash, [u] and four lower-case hex digits. *)
Definition unicode_escape (c : char) : text :=
  [92; 117; hex_digit ((c / 4096) mod 16); hex_digit ((c / 256) mod 16);
   hex_digit ((c / 16) mod 16); hex_digit (c mod 16)].

Definition is_high_surrogate (c : char) : bool := (55296 <=? c) && (c <=? 56319).
Definition is_low_surrogate (c : char) : bool := (56320 <=? c) && (c <=? 57343).
Definition is_surrogate (c : char) : bool := (55296 <=? c) && (c <=? 57343).

Definition escape_char (c : char) : text :=
  if c =? 8 then [92; 98]
  else if c =? 9 then [92; 116]
  else if c =? 10 then [92; 110]
  else if c =? 12 then [92; 102]
  else if c =? 13 then [92; 114]
  else if c =? 34 then [92; 34]
  else if c =? 92 then [92; 92]
  else if (c <? 32) || is_surrogate c then unicode_escape c
  else [c].

(** The body of [QuoteJSONString]: a well-formed surrogate pair is one code
    point and is copied; a lone surrogate is escaped. *)
Fixpoint quote_chars (t : text) : text :=
  match t with
  | [] => []
  | c :: r =>
      if is_high_surrogate c then
        match r with
        | d :: r' =>
            if is_low_surrogate d then c :: d :: quote_chars r'
            else unicode_escape c ++ quote_chars r
        | [] => unicode_escape c
        end
      else escape_char c ++ quote_chars r
  end.

Definition quote (s : text) : text := 34 :: quote_chars s ++ [34].

(** The shared tail of [SerializeJSONObject] and [SerializeJSONArray]:
    [stepback] is the indentation of the enclosing level. *)
Definition bracket (op cl : char) (gap stepback : text) (partial : list text) : text :=
  match partial with
  | [] => [op; cl]
  | _ =>
      match gap with
      | [] => op :: join [44] partial ++ [cl]
      | _ =>
          let indent := stepback ++ gap in
          op :: 10 :: indent ++ join (44 :: 10 :: indent) partial
             ++ 10 :: stepback ++ [cl]
      end
  end.

Definition colon (gap : text) : text :=
  match gap with [] => [58] | _ => [58; 32] end.

Fixpoint serialize (gap indent : text) (v : json) {struct v} : text :=
  match v with
  | JNull => js "null"
  | JBool true => js "true"
  | JBool false => js "false"
  | JNum literal => literal
  | JStr s => quote s
  | JArr items =>
      bracket 91 93 gap indent (List.map (serialize gap (indent ++ gap)) items)
  | JObj props =>
      bracket 123 125 gap indent
        (List.map (fun kv => quote (fst kv) ++ colon gap
                              ++ serialize gap (indent ++ gap) (snd kv)) props)
  end.

(** [JSON.stringify(v, null, space)]; [JSON.stringify(v)] is [space = 0]. *)
Definition JSON_stringify (v : json) (space : nat) : text :=
  serialize (repeat 32 (Nat.min space 10)) [] v.

(** ** JSON.parse *)

Definition is_ws (c : char) : bool :=
  (c =? 32) || (c =? 9) || (c =? 10) || (c =? 13).

Fixpoint skip_ws (t : text) : text :=
  match t with
  | c :: r => if is_ws c then skip_ws r else t
  | [] => []
  end.

Definition hex_value (c : char) : option N :=
  if is_digit c then Some (c - 48)
  else if (97 <=? c) && (c <=? 102) then Some (c - 87)
  else if (65 <=? c) && (c <=? 70) then Some (c - 55)
  else None.

Definition hex4 (a b c d : char) : option char :=
  match hex_value a, hex_value b, hex_value c, hex_value d with
  | Some x, Some y, Some z, Some w => Some (x * 4096 + y * 256 + z * 16 + w)
  | _, _, _, _ => None
  end.

(** The character a one-letter escape stands for. *)
Definition unescape (e : char) : option char :=
  if e =? 34 then Some 34
  else if e =? 92 then Some 92
  else if e =? 47 then Some 47
  else if e =? 98 then Some 8
  else if e =? 102 then Some 12
  else if e =? 110 then Some 10
  else if e =? 114 then Some 13
  else if e =? 116 then Some 9
  else None.

Definition cons_fst {A B} (a : A) (p : option (list A * B)) : option (list A * B) :=
  match p with
  | Some (l, b) => Some (a :: l, b)
  | None => None
  end.

(** The characters of a string literal after its opening quote, up to and
    including the closing quote: the decoded string and what follows. *)
Fixpoint parse_chars (t : text) : option (text * text) :=
  match t with
  | [] => None
  | c :: r =>
      if c =? 34 then Some ([], r)
      else if c =? 92 then
        match r with
        | [] => None
        | e :: r' =>
            if e =? 117 then
              match r' with
              | h1 :: h2 :: h3 :: h4 :: r'' =>
                  match hex4 h1 h2 h3 h4 with
                  | Some u => cons_fst u (parse_chars r'')
                  | None => None
                  end
              | _ => None
              end
            else
              match unescape e with
              | Some u => cons_fst u (parse_chars r')
              | None => None
              end
        end
      else if c <? 32 then None
      else cons_fst c (parse_chars r)
  end.

Fixpoint span_digits (t : text) : text * text :=
  match t with
  | c :: r => if is_digit c then let (d, r') := span_digits r in (c :: d, r') else ([], t)
  | [] => ([], [])
  end.

(** One or more digits. *)
Definition digits1 (t : text) : option (text * text) :=
  match span_digits t with
  | ([], _) => None
  | p => Some p
  end.

(** A number literal and what follows it: an optional minus, then a zero
    or a digit string not starting with zero, then an optional fraction
    (a dot and digits) and an optional exponent (e or E, a sign, digits). *)
Definition parse_number (t : text) : option (text * text) :=
  let (sign, t1) := match t with
                    | c :: r => if c =? 45 then ([45], r) else ([], t)
                    | [] => ([], t)
                    end in
  let int := match t1 with
             | c :: r => if c =? 48 then Some ([48], r) else digits1 t1
             | [] => None
             end in
  match int with
  | None => None
  | Some (i, t2) =>
      let frac := match t2 with
                  | c :: r =>
                      if c =? 46 then
                        match digits1 r with
                        | Some (d, r') => Some (46 :: d, r')
                        | None => None
                        end
                      else Some ([], t2)
                  | [] => Some ([], t2)
                  end in
      match frac with
      | None => None
      | Some (f, t3) =>
          let exp := match t3 with
                     | c :: r =>
                         if (c =? 101) || (c =? 69) then
                           let (s, r1) := match r with
                                          | c' :: r' =>
                                              if (c' =? 43) || (c' =? 45)
                                              then ([c'], r') else ([], r)
                                          | [] => ([], r)
                                          end in
                           match digits1 r1 with
                           | Some (d, r2) => Some (c :: s ++ d, r2)
                           | None => None
                           end
                         else Some ([], t3)
                     | [] => Some ([], t3)
                     end in
          match exp with
          | None => None
          | Some (e, t4) => Some (sign ++ i ++ f ++ e, t4)
          end
      end
  end.

(** [strip_prefix p t]: what follows [p] at the head of [t]. *)
Fixpoint strip_prefix (p t : text) : option text :=
  match p, t with
  | [], _ => Some t
  | x :: p', y :: t' => if x =? y then strip_prefix p' t' else None
  | _ :: _, [] => None
  end.

(** Recursive descent on the JSON grammar.  [fuel] bounds the nesting of
    the calls; the length of the input is always enough
    ([JSON_parse_fuel]).  A repeated key keeps its first place and its last
    value. *)
Fixpoint parse_value (fuel : nat) (t : text) {struct fuel} : option (json * text) :=
  match fuel with
  | O => None
  | S f =>
      match t with
      | [] => None
      | c :: r =>
          if c =? 123 then
            match skip_ws r with
            | c' :: r' => if c' =? 125 then Some (JObj [], r')
                          else parse_members f [] (c' :: r')
            | [] => None
            end
          else if c =? 91 then
            match skip_ws r with
            | c' :: r' => if c' =? 93 then Some (JArr [], r')
                          else parse_elements f [] (c' :: r')
            | [] => None
            end
          else if c =? 34 then
            match parse_chars r with
            | Some (s, r') => Some (JStr s, r')
            | None => None
            end
          else if c =? 116 then
            match strip_prefix (js "rue") r with
            | Some r' => Some (JBool true, r')
            | None => None
            end
          else if c =? 102 then
            match strip_prefix (js "alse") r with
            | Some r' => Some (JBool false, r')
            | None => None
            end
          else if c =? 110 then
            match strip_prefix (js "ull") r with
            | Some r' => Some (JNull, r')
            | None => None
            end
          else
            match parse_number t with
            | Some (l, r') => Some (JNum l, r')
            | None => None
            end
      end
  end

with parse_members (fuel : nat) (acc : obj) (t : text) {struct fuel}
  : option (json * text) :=
  match fuel with
  | O => None
  | S f =>
      match t with
      | [] => None
      | c :: r =>
          if c =? 34 then
            match parse_chars r with
            | None => None
            | Some (k, r1) =>
                match skip_ws r1 with
                | [] => None
                | c1 :: r2 =>
                    if c1 =? 58 then
                      match parse_value f (skip_ws r2) with
                      | None => None
                      | Some (v, r3) =>
                          let acc' := obj_set k v acc in
                          match skip_ws r3 with
                          | [] => None
                          | c2 :: r4 =>
                              if c2 =? 44 then parse_members f acc' (skip_ws r4)
                              else if c2 =? 125 then Some (JObj acc', r4)
                              else None
                          end
                      end
                    else None
                end
            end
          else None
      end
  end

with parse_elements (fuel : nat) (acc : list json) (t : text) {struct fuel}
  : option (json * text) :=
  match fuel with
  | O => None
  | S f =>
      match parse_value f t with
      | None => None
      | Some (v, r1) =>
          match skip_ws r1 with
          | [] => None
          | c :: r2 =>
              if c =? 44 then parse_elements f (acc ++ [v]) (skip_ws r2)
              else if c =? 93 then Some (JArr (acc ++ [v]), r2)
              else None
          end
      end
  end.

(** [JSON.parse]: one value, white space allowed around it; [None] is the
    [SyntaxError]. *)
Definition JSON_parse (t : text) : option json :=
  match parse_value (S (List.length t)) (skip_ws t) with
  | Some (v, r) => match skip_ws r with [] => Some v | _ => None end
  | None => None
  end.

(** JSON text written with [']  for the double quote. *)
Definition jq (s : string) : text :=
  List.map (fun c => if c =? 39 then 34 else c) (js s).

(** ** zod schemas

    The schema combinators the program uses, by their documented
    behaviour, with zod's default object mode: unknown keys are dropped,
    every failing field is reported.  An object or record result is built
    by [mergeObjectSync], which checks the value under every key and
    assigns it, except under the key [__proto__]: that value is checked
    and then left out of the result. *)

Inductive ztype := TString | TBoolean | TObject.

Record issue := { expected : ztype; path : list text }.

Inductive schema : Type :=
| ZString                                   (* z.string() *)
| ZBoolean                                  (* z.boolean() *)
| ZRecord (key val : schema)                (* z.record(key, val) *)
| ZObject (shape : list (text * schema)).   (* z.object({ ... }) *)

Inductive zresult := ZOk (v : json) | ZErr (issues : list issue).

Definition proto_key : text := js "__proto__".

(** [if (key.value !== "__proto__") finalObject[key.value] = value.value] *)
Definition merge (acc : obj) (k : text) (v : json) : obj :=
  if text_eqb k proto_key then acc else obj_set k v acc.

(** The result of an object or record from the results of its fields: the
    fields are merged in order onto a fresh object. *)
Fixpoint collect (fields : list (text * zresult)) (acc : obj) (errs : list issue)
  : zresult :=
  match fields with
  | [] => match errs with [] => ZOk (JObj acc) | _ => ZErr errs end
  | (k, ZOk v) :: r => collect r (merge acc k v) errs
  | (k, ZErr e) :: r => collect r acc (errs ++ e)
  end.

Fixpoint zparse (s : schema) (at_path : list text) (input : value) {struct s}
  : zresult :=
  match s with
  | ZString =>
      match input with
      | Some (JStr x) => ZOk (JStr x)
      | _ => ZErr [{| expected := TString; path := at_path |}]
      end
  | ZBoolean =>
      match input with
      | Some (JBool b) => ZOk (JBool b)
      | _ => ZErr [{| expected := TBoolean; path := at_path |}]
      end
  | ZRecord ks vs =>
      match input with
      | Some (JObj o) =>
          collect
            (List.map
               (fun kv =>
                  match zparse ks (at_path ++ [fst kv]) (Some (JStr (fst kv))) with
                  | ZOk (JStr k) => (k, zparse vs (at_path ++ [fst kv]) (Some (snd kv)))
                  | ZOk _ => (fst kv, ZErr [{| expected := TString; path := at_path ++ [fst kv] |}])
                  | ZErr e => (fst kv, ZErr e)
                  end) o) [] []
      | _ => ZErr [{| expected := TObject; path := at_path |}]
      end
  | ZObject shape =>
      match input with
      | Some (JObj o) =>
          collect
            ((fix fields (sh : list (text * schema)) : list (text * zresult) :=
                match sh with
                | [] => []
                | (k, fs) :: r => (k, zparse fs (at_path ++ [k]) (lookup k o)) :: fields r
                end) shape) [] []
      | _ => ZErr [{| expected := TObject; path := at_path |}]
      end
  end.

(** ** Exceptions

    What the program and its run time throw.  An [Error] the source builds
    around another error's message keeps that error as its cause. *)

Inductive exn : Type :=
| ENOENT                                  (* fs: the file cannot be opened *)
| SyntaxError                             (* JSON.parse, response.json() *)
| TypeError                               (* property read on null *)
| FetchError                              (* fetch: no response at all *)
| ZodError (issues : list issue)          (* schema.parse *)
| ReadMemoryError (cause : exn)           (* Failed to read/parse memory file: ... *)
| WriteMemoryError (cause : exn)          (* Failed to validate/write memory file: ... *)
| OpenRouterRequestFailed (status : N) (statusText errorText : text)
| NoAssistantMessage                      (* Could not extract assistant message ... *)
| UnknownCapabilityError (name : text)
| InvalidInputError (issues : list issue)
| DuplicateCapabilityError (name : text).

(** The failure kinds of the specification's taxonomy. *)
Inductive failure :=
| UnknownCapability | DuplicateCapability | InvalidInput | InvalidDocument
| CorruptState | StoreUnavailable | UpstreamError | UpstreamProtocolError.

(** Modelled from the spec: the taxonomy of section 7 read onto the throw
    sites of the source, which only ever throws [Error] with a message.  A
    bare run-time error that reaches the caller has no kind of its own. *)
Definition failure_of (e : exn) : option failure :=
  match e with
  | ReadMemoryError ENOENT => Some StoreUnavailable
  | ReadMemoryError _ => Some CorruptState
  | WriteMemoryError (ZodError _) => Some InvalidDocument
  | WriteMemoryError _ => Some StoreUnavailable
  | OpenRouterRequestFailed _ _ _ => Some UpstreamError
  | NoAssistantMessage => Some UpstreamProtocolError
  | UnknownCapabilityError _ => Some UnknownCapability
  | InvalidInputError _ => Some InvalidInput
  | DuplicateCapabilityError _ => Some DuplicateCapability
  | _ => None
  end.

(** ** The world outside the process *)

Record request := {
  url : text;
  method : text;
  headers : list (text * text);
  payload : text
}.

Record response := {
  status : N;
  statusText : text;
  body : text
}.

(** [response.ok] *)
Definition ok (r : response) : bool := (200 <=? status r) && (status r <=? 299).

Inductive stream := Log | Err.

Inductive event : Type :=
| ReadFile (file : text)
| WriteFile (file : text) (data : text)
| Fetch (rq : request)
| Console (s : stream) (label : text).

(** [memory_file] is the content of [data/memory.json] ([None]: no such
    file).  [provider] is what a call [fetch(url, init)] of node-fetch
    settles with: the response the promise resolves with, which for a
    redirect the library follows is the response at the end of the chain,
    or [None] when the promise rejects (no answer, too many redirects, a
    request the library refuses to send).  [trace] is what the process did
    so far, latest first; [Fetch] is a call of [fetch], whatever number of
    requests the library sends for it, and [WriteFile] a write that took
    place. *)
Record world := {
  memory_file : option text;
  provider : request -> option response;
  trace : list event
}.

(** ** Effects: state and exceptions *)

Inductive outcome (A : Type) : Type :=
| Return (a : A)
| Throw (e : exn).
Arguments Return {A} a.
Arguments Throw {A} e.

Definition M (A : Type) : Type := world -> outcome A * world.

Definition ret {A} (a : A) : M A := fun w => (Return a, w).

Definition throw {A} (e : exn) : M A := fun w => (Throw e, w).

Definition bind {A B} (m : M A) (k : A -> M B) : M B :=
  fun w =>
    match m w with
    | (Return a, w') => k a w'
    | (Throw e, w') => (Throw e, w')
    end.

(** [try { m } catch (error) { h error }] *)
Definition try_catch {A} (m : M A) (h : exn -> M A) : M A :=
  fun w =>
    match m w with
    | (Return a, w') => (Return a, w')
    | (Throw e, w') => h e w'
    end.

Declare Scope js_scope.
Delimit Scope js_scope with js.
Notation "x <- m ;; k" := (bind m (fun x => k))
  (at level 61, m at next level, right associativity) : js_scope.
Notation "m ;; k" := (bind m (fun _ => k))
  (at level 61, right associativity) : js_scope.
Local Open Scope js_scope.

Definition emit (e : event) : M unit :=
  fun w => (Return tt, {| memory_file := memory_file w;
                          provider := provider w;
                          trace := e :: trace w |}).

Definition console_log (label : text) : M unit := emit (Console Log label).
Definition console_error (label : text) : M unit := emit (Console Err label).

(** [fs.readFile(file, 'utf-8')] *)
Definition fs_readFile (file : text) : M text :=
  emit (ReadFile file) ;;
  fun w => match memory_file w with
           | Some data => (Return data, w)
           | None => (Throw ENOENT, w)
           end.

(** [fs.writeFile(file, data, 'utf-8')]: the file is created or replaced
    as a whole.  The medium always takes the write: in every state of the
    model the directory of the file is in place and can be written to. *)
Definition fs_writeFile (file data : text) : M unit :=
  emit (WriteFile file data) ;;
  fun w => (Return tt, {| memory_file := Some data;
                          provider := provider w;
                          trace := trace w |}).

(** [fetch(url, init)]: the call and what it settles with. *)
Definition fetch (rq : request) : M response :=
  emit (Fetch rq) ;;
  fun w => match provider w rq with
           | Some r => (Return r, w)
           | None => (Throw FetchError, w)
           end.

(** [JSON.parse] as the program calls it. *)
Definition JSON_parse_or_throw (t : text) : M json :=
  match JSON_parse t with
  | Some v => ret v
  | None => throw SyntaxError
  end.

(** [schema.parse(input)] *)
Definition parse (s : schema) (input : json) : M json :=
  match zparse s [] (Some input) with
  | ZOk v => ret v
  | ZErr issues => throw (ZodError issues)
  end.

(** The writes among the events of a trace. *)
Definition writes (tr : list event) : list event :=
  List.filter (fun e => match e with WriteFile _ _ => true | _ => false end) tr.

(** * src/resources/index.ts *)

(** [path.resolve(__dirname, '../../data/memory.json')], from the project
    root. *)
Definition memoryFilePath : text := js "data/memory.json".

Definition MemorySchema : schema :=
  ZObject [(js "user_id", ZString);
           (js "known_concepts", ZRecord ZString ZBoolean)].

(** Read, parse, validate; any failure is logged and thrown again inside
    an [Error] of this function. *)
Definition readMemory : M json :=
  try_catch
    (data <- fs_readFile memoryFilePath ;;
     jsonData <- JSON_parse_or_throw data ;;
     parse MemorySchema jsonData)
    (fun error =>
       console_error (js "Error reading or parsing memory file:") ;;
       throw (ReadMemoryError error)).

(** Validate, serialize with two spaces of indentation, write.  The
    argument is typed [MemoryData] in the source; at run time it is any
    value. *)
Definition writeMemory (newData : json) : M unit :=
  try_catch
    (parse MemorySchema newData ;;
     let dataString := JSON_stringify newData 2 in
     fs_writeFile memoryFilePath dataString)
    (fun error =>
       console_error (js "Error validating or writing memory file:") ;;
       throw (WriteMemoryError error)).

(** * The capability registry

    The registry is the [McpServer] object of the protocol SDK, a
    dependency that is not part of the repository.  What the process
    prints while it registers is not modelled. *)

Inductive kind := Guidance | Resource | Action.

(** Modelled from the spec: an entry of the registry as section 3 of the
    specification describes it (name, kind, input contract, handler); the
    [McpServer] class that holds the entries is not under [src]. *)
Record capability := {
  name : text;
  kind_of : kind;
  description : text;
  inputContract : schema;
  handler : json -> M json
}.

(** The entries in registration order. *)
Definition server := list capability.

Definition registered (nm : text) (srv : server) : option capability :=
  List.find (fun c => text_eqb (name c) nm) srv.

(** Modelled from the spec: [register] of section 4.1, which fails with
    DuplicateCapability on a name already taken; [McpServer] is not under
    [src]. *)
Definition register (c : capability) (srv : server) : outcome server :=
  match registered (name c) srv with
  | Some _ => Throw (DuplicateCapabilityError (name c))
  | None => Return (srv ++ [c])
  end.

(** Modelled from the spec: [list] of section 4.1, in registration order. *)
Definition list_capabilities (srv : server) : list (text * kind) :=
  List.map (fun c => (name c, kind_of c)) srv.

(** Modelled from the spec: the second half of [invoke] of section 4.1,
    the raw input validated against the input contract (InvalidInput on a
    mismatch) and then handed to the handler, whose result or failure is
    passed on unchanged. *)
Definition dispatch (contract : schema) (h : json -> M json) (rawInput : json)
  : M json :=
  match zparse contract [] (Some rawInput) with
  | ZErr issues => throw (InvalidInputError issues)
  | ZOk validated => h validated
  end.

(** Modelled from the spec: [invoke] of section 4.1, which fails with
    UnknownCapability when no entry has the name. *)
Definition invoke (srv : server) (nm : text) (rawInput : json) : M json :=
  match registered nm srv with
  | None => throw (UnknownCapabilityError nm)
  | Some c => dispatch (inputContract c) (handler c) rawInput
  end.

(** [server.tool(name, description, shape, cb)] *)
Definition server_tool (nm descr : text) (shape : list (text * schema))
    (cb : json -> M json) : server -> outcome server :=
  register {| name := nm; kind_of := Action; description := descr;
              inputContract := ZObject shape; handler := cb |}.

(** [server.prompt(name, description, shape, cb)] *)
Definition server_prompt (nm descr : text) (shape : list (text * schema))
    (cb : json -> M json) : server -> outcome server :=
  register {| name := nm; kind_of := Guidance; description := descr;
              inputContract := ZObject shape; handler := cb |}.

(** A validated input as the string it is; the second case is not
    reached after validation against [ZString]. *)
Definition as_text (v : value) : text :=
  match v with Some (JStr s) => s | _ => [] end.

(** A validated input as the boolean it is; the second case is not
    reached after validation against [ZBoolean]. *)
Definition as_bool (v : value) : bool :=
  match v with Some (JBool b) => b | _ => false end.

(** [server.resource(name, uri, metadata, readCallback)].  Modelled from
    the spec: a resource is an entry of the one registry of section 4.1,
    invoked by its name with the requested identifier as input; its entry
    keeps the URI where a tool keeps its description.  How the SDK routes
    an identifier to a resource is not modelled. *)
Definition server_resource (nm uriBase : text) (readable writable : bool)
    (cb : text -> M json) : server -> outcome server :=
  register {| name := nm; kind_of := Resource; description := uriBase;
              inputContract := ZString;
              handler := fun input => cb (as_text (Some input)) |}.

(** Registration steps in sequence; a throw ends start-up. *)
Definition and_then (f g : server -> outcome server) : server -> outcome server :=
  fun srv => match f srv with
             | Return srv' => g srv'
             | Throw e => Throw e
             end.

(** * src/resources/index.ts, continued *)

(** The read handler of the resource. *)
Definition css_knowledge_memory (uri : text) : M json :=
  console_log (js "Resource request for: " ++ uri) ;;
  try_catch
    (memoryData <- readMemory ;;
     ret (JObj [(js "contents",
                 JArr [JObj [(js "uri", JStr uri);
                             (js "mimeType", JStr (js "application/json"));
                             (js "text", JStr (JSON_stringify memoryData 0))]])]))
    (fun error =>
       console_error (js "Error handling resource request for " ++ uri ++ js ":") ;;
       throw error).

Definition registerCssKnowledgeMemoryResource : server -> outcome server :=
  let resourceName := js "css_knowledge_memory" in
  let resourceUriBase := js "memory://" ++ resourceName ++ js "/" in
  server_resource resourceName resourceUriBase true true css_knowledge_memory.

Definition registerResources : server -> outcome server :=
  registerCssKnowledgeMemoryResource.

(** * src/tools/index.ts *)

(** [{ content: [{ type: "text", text: t }] }] *)
Definition text_content (t : json) : json :=
  JObj [(js "content", JArr [JObj [(js "type", JStr (js "text")); (js "text", t)]])].

Definition read_from_memory : json -> M json :=
  fun _ =>
    try_catch
      (memoryData <- readMemory ;;
       ret (text_content (JStr (JSON_stringify memoryData 2))))
      (fun error =>
         console_error (js "Error in read_from_memory tool:") ;;
         throw error).

Definition registerReadFromMemoryTool : server -> outcome server :=
  server_tool (js "read_from_memory")
    (js "Reads the user's current CSS knowledge from memory.")
    [] read_from_memory.

(** The items of a list as properties numbered from [i]. *)
Fixpoint indexed {A} (f : A -> json) (i : N) (l : list A) : obj :=
  match l with
  | [] => []
  | x :: r => (to_dec i, f x) :: indexed f (N.succ i) r
  end.

(** The own enumerable properties a spread copies: of an object its
    properties, of an array or a string its indexed items, of anything
    else nothing. *)
Definition own_props (v : value) : obj :=
  match v with
  | Some (JObj o) => o
  | Some (JArr l) => indexed (fun x => x) 0 l
  | Some (JStr s) => indexed (fun c => JStr [c]) 0 s
  | _ => []
  end.

(** [v.k] where [v] is an object. *)
Definition field (v : json) (k : text) : value :=
  match v with
  | JObj o => lookup k o
  | _ => None
  end.

Definition writeMemoryInputShape : list (text * schema) :=
  [(js "concept", ZString); (js "known", ZBoolean)].

(** The handler of [write_to_memory].  [args] is the value the shape
    validation produced: its [concept] is a string and its [known] a
    boolean. *)
Definition write_to_memory : json -> M json :=
  fun args =>
    let concept := as_text (field args (js "concept")) in
    let known := as_bool (field args (js "known")) in
    try_catch
      (currentMemory <- readMemory ;;
       let updatedMemory :=
         JObj (obj_set (js "known_concepts")
                 (JObj (obj_set concept (JBool known)
                          (spread (own_props (field currentMemory (js "known_concepts"))))))
                 (spread (own_props (Some currentMemory)))) in
       writeMemory updatedMemory ;;
       ret (text_content (JStr (js "Memory updated successfully for concept: " ++ concept))))
      (fun error =>
         console_error (js "Error in write_to_memory tool:") ;;
         throw error).

Definition registerWriteToMemoryTool : server -> outcome server :=
  server_tool (js "write_to_memory")
    (js "Updates the user's CSS knowledge memory for a specific concept.")
    writeMemoryInputShape write_to_memory.

(** A property read [v.k] or [v[i]] on a value that is not null: own
    entries of objects, items of arrays, characters of strings.  None of
    the names the program reads is a built-in property. *)
Definition member (v : json) (k : text) : value :=
  match v with
  | JObj o => lookup k o
  | JArr l => match array_index k with
              | Some n => nth_error l (N.to_nat n)
              | None => None
              end
  | JStr s => match array_index k with
              | Some n => option_map (fun c => JStr [c]) (nth_error s (N.to_nat n))
              | None => None
              end
  | _ => None
  end.

(** [v?.k]: [undefined] when [v] is [undefined] or [null]. *)
Definition opt_member (v : value) (k : text) : value :=
  match v with
  | None | Some JNull => None
  | Some x => member x k
  end.

(** The number a string of digits writes. *)
Fixpoint digits_value (acc : N) (t : text) : N :=
  match t with
  | [] => acc
  | c :: r => digits_value (acc * 10 + (c - 48)) r
  end.

(** The parts of a number literal: the digits before and after the point,
    whether the exponent is negative, and the digits of the exponent. *)
Definition literal_parts (l : text) : text * text * bool * text :=
  let t0 := match l with
            | c :: r => if c =? 45 then r else l
            | [] => l
            end in
  let (int, t1) := span_digits t0 in
  let (frac, t2) := match t1 with
                    | c :: r => if c =? 46 then span_digits r else ([], t1)
                    | [] => ([], t1)
                    end in
  let (neg, ex) := match t2 with
                   | c :: r =>
                       if (c =? 101) || (c =? 69) then
                         match r with
                         | s :: r' =>
                             if s =? 45 then (true, fst (span_digits r'))
                             else if s =? 43 then (false, fst (span_digits r'))
                             else (false, fst (span_digits r))
                         | [] => (false, [])
                         end
                       else (false, [])
                   | [] => (false, [])
                   end in
  (int, frac, neg, ex).

(** The double a literal is read as is zero.  [JSON.parse] reads a literal
    as the double nearest to the number it writes, ties to even: that is
    zero when the number is zero, and when it is at most 2^(-1075), half
    of the least positive double.  With [m] the digits without the point
    and [k] the power of ten they are divided by, the second case is
    [m * 2^1075 <= 10^k]. *)
Definition zero_number (l : text) : bool :=
  let '(int, frac, neg, ex) := literal_parts l in
  let m := digits_value 0 (int ++ frac) in
  let x := digits_value 0 ex in
  let fl := N.of_nat (List.length frac) in
  let k := if neg then x + fl else fl - x in
  (m =? 0) || ((neg || (x <=? fl)) && (m * 2 ^ 1075 <=? 10 ^ k)).

(** [!v] *)
Definition falsy (v : value) : bool :=
  match v with
  | None | Some JNull | Some (JBool false) | Some (JStr []) => true
  | Some (JNum l) => zero_number l
  | _ => false
  end.

Definition openRouterUrl : text := js "https://openrouter.ai/api/v1/chat/completions".

Definition updates_request (openRouterApiKey : text) : request :=
  {| url := openRouterUrl;
     method := js "POST";
     headers := [(js "Authorization", js "Bearer " ++ openRouterApiKey);
                 (js "Content-Type", js "application/json")];
     payload :=
       JSON_stringify
         (JObj [(js "model", JStr (js "perplexity/sonar-pro"));
                (js "messages",
                 JArr [JObj [(js "role", JStr (js "system"));
                             (js "content", JStr (js "You are an AI assistant specialized in finding the latest CSS news and updates. Summarize the key recent developments."))];
                       JObj [(js "role", JStr (js "user"));
                             (js "content", JStr (js "What are the most important recent updates or newly released features in CSS? Focus on things developers should be aware of in the last few months."))]])]) 0 |}.

(** [data.choices?.[0]?.message?.content] for [data] other than null. *)
Definition content_path (data : json) : value :=
  opt_member (opt_member (opt_member (member data (js "choices")) (js "0"))
                (js "message")) (js "content").

(** The same read in the program: [data.choices] throws on null. *)
Definition assistant_message (data : json) : M value :=
  match data with
  | JNull => throw TypeError
  | _ => ret (content_path data)
  end.

(** The value itself when it is truthy. *)
Definition truthy (v : value) : value := if falsy v then None else v.

Definition get_latest_updates (openRouterApiKey : text) : json -> M json :=
  fun _ =>
    try_catch
      (response <- fetch (updates_request openRouterApiKey) ;;
       (if negb (ok response) then
          let errorText := body response in
          throw (OpenRouterRequestFailed (status response) (statusText response) errorText)
        else ret tt) ;;
       data <- JSON_parse_or_throw (body response) ;;
       assistantMessage <- assistant_message data ;;
       match truthy assistantMessage with
       | None =>
           console_error (js "Invalid response structure from OpenRouter:") ;;
           throw NoAssistantMessage
       | Some message => ret (text_content message)
       end)
      (fun error =>
         console_error (js "Error in get_latest_updates tool:") ;;
         throw error).

(** The tool is registered only when [openRouterApiKey] is truthy: neither
    undefined nor the empty string. *)
Definition registerGetLatestUpdatesTool (openRouterApiKey : option text)
  : server -> outcome server :=
  match openRouterApiKey with
  | None | Some [] => fun srv => Return srv
  | Some key =>
      server_tool (js "get_latest_updates")
        (js "Fetches recent news and updates about CSS features using Perplexity Sonar via OpenRouter.")
        [] (get_latest_updates key)
  end.

Definition registerTools (openRouterApiKey : option text) : server -> outcome server :=
  and_then registerReadFromMemoryTool
    (and_then registerWriteToMemoryTool
       (registerGetLatestUpdatesTool openRouterApiKey)).

(** * src/prompts/index.ts *)

(** The handler of the prompt: the static text as one assistant message. *)
Definition css_tutor_guidance (promptText : text) : json -> M json :=
  fun _ =>
    ret (JObj [(js "messages",
                JArr [JObj [(js "role", JStr (js "assistant"));
                            (js "content",
                             JObj [(js "type", JStr (js "text"));
                                   (js "text", JStr promptText)])]])]).

(** [promptFile] is the content of [css_updater_prompt.txt] as
    [fs.readFileSync] finds it at start-up; a failure of the read or of the
    registration is logged and the prompt is left out. *)
Definition registerCssTutorPrompt (promptFile : option text)
  : server -> outcome server :=
  fun srv =>
    match promptFile with
    | None => Return srv
    | Some promptText =>
        match
          server_prompt (js "css-tutor-guidance")
            (js "Provides guidance on how to use the CSS tutor tools and resources.")
            [] (css_tutor_guidance promptText) srv
        with
        | Return srv' => Return srv'
        | Throw _ => Return srv
        end
    end.

Definition registerPrompts (promptFile : option text) : server -> outcome server :=
  registerCssTutorPrompt promptFile.

(** * src/index.ts *)

(** The process configuration: the environment variable and the prompt
    file next to the compiled code. *)
Record config := {
  OPENROUTER_API_KEY : option text;
  css_updater_prompt : option text
}.

(** The registry after the three registration calls of the entry point. *)
Definition start (cfg : config) : outcome server :=
  and_then (registerPrompts (css_updater_prompt cfg))
    (and_then registerResources
       (registerTools (OPENROUTER_API_KEY cfg))) [].

(** * Vocabulary of the properties *)

(** ** Objects in property order

    An object built by assignments lists its array-index keys first, in
    numeric order, and then the others as they came; [wf] says so of a
    list of entries, and that no key is repeated. *)

Definition keys (o : obj) : list text := List.map fst o.

(** [k1] may come before [k2] in an object. *)
Definition before (k1 k2 : text) : Prop :=
  match array_index k2 with
  | Some b => match array_index k1 with Some a => a < b | None => False end
  | None => True
  end.

Fixpoint ordered (ks : list text) : Prop :=
  match ks with
  | [] => True
  | k :: r => Forall (before k) r /\ ordered r
  end.

Definition wf (o : obj) : Prop := NoDup (keys o) /\ ordered (keys o).

(** One assignment of a copy or of [JSON.parse]. *)
Definition assign (a : obj) (kv : text * json) : obj := obj_set (fst kv) (snd kv) a.

(** One step of a schema parse. *)
Definition keep (a : obj) (kv : text * json) : obj := merge a (fst kv) (snd kv).

(** The entries a record parse keeps: all but [__proto__]. *)
Definition parsed (o : obj) : obj :=
  List.filter (fun kv => negb (text_eqb (fst kv) proto_key)) o.

(** ** Documents *)

Definition boolean_entry (kv : text * json) : Prop := exists b, snd kv = JBool b.

(** The shape of every value [MemorySchema.parse] returns. *)
Definition document (user_id : text) (known_concepts : obj) : json :=
  JObj [(js "user_id", JStr user_id); (js "known_concepts", JObj known_concepts)].

(** The values [MemorySchema.parse] returns, which the source types
    [MemoryData]. *)
Definition MemoryData (d : json) : Prop :=
  exists s kc,
    d = document s kc /\ wf kc /\ Forall boolean_entry kc
    /\ has_key proto_key kc = false.

(** The fields of a record of booleans, as [zparse] lists them. *)
Definition record_fields (at_path : list text) (o : obj) : list (text * zresult) :=
  List.map
    (fun kv =>
       match zparse ZString (at_path ++ [fst kv]) (Some (JStr (fst kv))) with
       | ZOk (JStr k) => (k, zparse ZBoolean (at_path ++ [fst kv]) (Some (snd kv)))
       | ZOk _ => (fst kv, ZErr [{| expected := TString; path := at_path ++ [fst kv] |}])
       | ZErr e => (fst kv, ZErr e)
       end) o.

(** The document a file content stands for, when it is JSON that the
    schema accepts. *)
Definition stored_document (data : text) : option json :=
  match JSON_parse data with
  | Some j => match zparse MemorySchema [] (Some j) with
              | ZOk d => Some d
              | ZErr _ => None
              end
  | None => None
  end.

(** The entry of [known_concepts] for a concept in a document. *)
Definition known_concept (d : json) (concept : text) : value :=
  match field d (js "known_concepts") with
  | Some (JObj kc) => lookup concept kc
  | _ => None
  end.

(** [typeof v === "string"] *)
Definition is_string (v : value) : bool :=
  match v with Some (JStr _) => true | _ => false end.

(** ** Serialized text *)

(** White space only. *)
Definition blank (t : text) : Prop := Forall (fun c => is_ws c = true) t.

(** What follows a value inside an object: a comma and the next member,
    or the closing brace. *)
Definition after_member (f : nat) (acc : obj) (t : text) : option (json * text) :=
  match skip_ws t with
  | [] => None
  | c :: r =>
      if c =? 44 then parse_members f acc (skip_ws r)
      else if c =? 125 then Some (JObj acc, r)
      else None
  end.

(** The text of one member of an object. *)
Definition member_text (gap ind : text) (kv : text * json) : text :=
  quote (fst kv) ++ colon gap ++ serialize gap ind (snd kv).

(** ** Worlds and payloads *)

(** The world after more events, the file untouched. *)
Definition logged (es : list event) (w : world) : world :=
  {| memory_file := memory_file w; provider := provider w; trace := es ++ trace w |}.

(** The world after the file was replaced by [data]. *)
Definition written (data : text) (w : world) : world :=
  {| memory_file := Some data; provider := provider w;
     trace := WriteFile memoryFilePath data :: trace w |}.

(** What the handlers print when they fail. *)
Definition read_failure_label : event :=
  Console Err (js "Error reading or parsing memory file:").

Definition write_failure_label : event :=
  Console Err (js "Error validating or writing memory file:").

Definition read_tool_label : event := Console Err (js "Error in read_from_memory tool:").

Definition resource_request (uri : text) : event :=
  Console Log (js "Resource request for: " ++ uri).

Definition resource_label (uri : text) : event :=
  Console Err (js "Error handling resource request for " ++ uri ++ js ":").

Definition updates_tool_label : event := Console Err (js "Error in get_latest_updates tool:").

Definition invalid_response_label : event :=
  Console Err (js "Invalid response structure from OpenRouter:").

(** The success payload of [write_to_memory]. *)
Definition confirmation (concept : text) : json :=
  text_content (JStr (js "Memory updated successfully for concept: " ++ concept)).

(** [{ contents: [{ uri, mimeType: "application/json", text: t }] }] *)
Definition resource_contents (uri : text) (t : json) : json :=
  JObj [(js "contents",
         JArr [JObj [(js "uri", JStr uri);
                     (js "mimeType", JStr (js "application/json"));
                     (js "text", t)]])].

(** [{ concept, known }] as a caller sends it. *)
Definition write_args (concept : json) (known : json) : json :=
  JObj [(js "concept", concept); (js "known", known)].

(** ** The registry after start-up *)

(** What a registration step adds to an empty registry. *)
Definition entry (reg : server -> outcome server) : server :=
  match reg [] with Return srv => srv | Throw _ => [] end.

Definition entries (cfg : config) : server :=
  entry (registerPrompts (css_updater_prompt cfg))
    ++ entry registerResources
    ++ entry registerReadFromMemoryTool
    ++ entry registerWriteToMemoryTool
    ++ entry (registerGetLatestUpdatesTool (OPENROUTER_API_KEY cfg)).

(** The entries that do not depend on the credential. *)
Definition common_entries (prompt : option text) : server :=
  entry (registerPrompts prompt)
    ++ entry registerResources
    ++ entry registerReadFromMemoryTool
    ++ entry registerWriteToMemoryTool.

Definition updates_name : text := js "get_latest_updates".

(** ** Sample states *)

Definition no_provider : request -> option response := fun _ => None.

(** The seed document of the end-to-end scenarios. *)
Definition seed_world : world :=
  {| memory_file := Some (jq "{'user_id':'u1','known_concepts':{}}");
     provider := no_provider;
     trace := [] |}.

(** A file with a string where a boolean is expected. *)
Definition corrupt_world : world :=
  {| memory_file := Some (jq "{'user_id':'u1','known_concepts':{'Flexbox':'yes'}}");
     provider := no_provider;
     trace := [] |}.

(** A provider that answers every request with status 200 and [text_]. *)
Definition answering (text_ : text) : world :=
  {| memory_file := None;
     provider := fun _ => Some {| status := 200; statusText := js "OK"; body := text_ |};
     trace := [] |}.

(** No credential, no prompt file. *)
Definition bare_config : config :=
  {| OPENROUTER_API_KEY := None; css_updater_prompt := None |}.

(** A credential, no prompt file. *)
Definition keyed_config : config :=
  {| OPENROUTER_API_KEY := Some (js "sk-or-test"); css_updater_prompt := None |}.

(** ** Sessions and what they leave behind *)

(** The document in the store of a world, when the file is there and
    holds one. *)
Definition store_document (w : world) : option json :=
  match memory_file w with
  | Some data => stored_document data
  | None => None
  end.

(** The requests among the events of a trace. *)
Definition fetches (tr : list event) : list event :=
  List.filter (fun e => match e with Fetch _ => true | _ => false end) tr.

(** The reads and writes of the file among the events of a trace. *)
Definition file_accesses (tr : list event) : list event :=
  List.filter (fun e => match e with
                        | ReadFile _ | WriteFile _ _ => true
                        | _ => false
                        end) tr.

(** The world after a sequence of invocations, each run to completion
    before the next. *)
Definition session (srv : server) (calls : list (text * json)) (w : world) : world :=
  fold_left (fun w' call => snd (invoke srv (fst call) (snd call) w')) calls w.

Definition write_tool_label : event := Console Err (js "Error in write_to_memory tool:").

(** No file at all: the first run without a seed. *)
Definition missing_world : world :=
  {| memory_file := None; provider := no_provider; trace := [] |}.

(** A provider that answers every request with [status_] and [text_]. *)
Definition replying (status_ : N) (reason text_ : text) : world :=
  {| memory_file := None;
     provider := fun _ => Some {| status := status_; statusText := reason; body := text_ |};
     trace := [] |}.

(** A credential and a prompt file. *)
Definition full_config : config :=
  {| OPENROUTER_API_KEY := Some (js "sk-or-test");
     css_updater_prompt := Some (js "Call get_latest_updates first.") |}.

(** The backing file is as it was and nothing was written to it. *)
Definition same_store (w w' : world) : Prop :=
  memory_file w' = memory_file w /\ writes (trace w') = writes (trace w).

(** [d'] has the user of [d] and an entry for every concept of [d]. *)
Definition extends (d d' : json) : Prop :=
  field d' (js "user_id") = field d (js "user_id")
  /\ forall concept, known_concept d concept <> None -> known_concept d' concept <> None.

(** * Properties *)

(** ** The run time on examples *)

Example to_dec_largest_index : to_dec 4294967294 = js "4294967294".
Proof. reflexivity. Qed.

Example array_index_canonical :
  array_index (js "42") = Some 42
  /\ array_index (js "042") = None
  /\ array_index (js "4294967295") = None
  /\ array_index (js "Flexbox") = None.
Proof. repeat split. Qed.

Example index_keys_come_first :
  keys (obj_set (js "2") JNull (obj_set (js "b") JNull (obj_set (js "10") JNull [])))
  = [js "2"; js "10"; js "b"].
Proof. reflexivity. Qed.

Example stringify_compact :
  JSON_stringify (document (js "u1") [(js "Flexbox", JBool true)]) 0
  = jq "{'user_id':'u1','known_concepts':{'Flexbox':true}}".
Proof. reflexivity. Qed.

Example stringify_indented :
  JSON_stringify (document (js "u1") [(js "Flexbox", JBool true)]) 2
  = jq "{
  'user_id': 'u1',
  'known_concepts': {
    'Flexbox': true
  }
}".
Proof. reflexivity. Qed.

Example stringify_escapes :
  JSON_stringify (JStr [97; 92; 98; 10; 1; 55357; 56832; 56832; 233]) 0
  = jq "'a\\b\n\u0001" ++ [55357; 56832] ++ jq "\ude00" ++ [233; 34].
Proof. reflexivity. Qed.

Example parse_repeated_key :
  JSON_parse (jq "{'a':1,'b':2,'a':3}")
  = Some (JObj [(js "a", JNum (js "3")); (js "b", JNum (js "2"))]).
Proof. reflexivity. Qed.

Example parse_white_space_and_escapes :
  JSON_parse (jq " { 'k' : [ true , null , -1.5e+3 , 'xA\n' ] } ")
  = Some (JObj [(js "k", JArr [JBool true; JNull; JNum (js "-1.5e+3");
                                JStr [120; 65; 10]])]).
Proof. reflexivity. Qed.

Example parse_rejects :
  JSON_parse (jq "{'a':1,}") = None
  /\ JSON_parse (jq "[01]") = None
  /\ JSON_parse (jq "{'a':1} x") = None
  /\ JSON_parse (jq "{a:1}") = None
  /\ JSON_parse [] = None.
Proof. repeat split. Qed.

Example schema_reports_every_field :
  zparse MemorySchema [] (JSON_parse (jq "{'known_concepts':{'a':1,'b':true}}"))
  = ZErr [{| expected := TString; path := [js "user_id"] |};
          {| expected := TBoolean; path := [js "known_concepts"; js "a"] |}].
Proof. reflexivity. Qed.

Example schema_drops_unknown_keys :
  zparse MemorySchema []
    (JSON_parse (jq "{'extra':1,'known_concepts':{},'user_id':'u1'}"))
  = ZOk (document (js "u1") []).
Proof. reflexivity. Qed.

(** The value under [__proto__] is checked and the entry is left out. *)
Example schema_drops_proto :
  zparse MemorySchema []
    (JSON_parse (jq "{'user_id':'u1','known_concepts':{'__proto__':true,'Grid':false}}"))
  = ZOk (document (js "u1") [(js "Grid", JBool false)])
  /\ zparse MemorySchema []
       (JSON_parse (jq "{'user_id':'u1','known_concepts':{'__proto__':'yes'}}"))
     = ZErr [{| expected := TBoolean; path := [js "known_concepts"; js "__proto__"] |}].
Proof. split; reflexivity. Qed.

(** Literals that are read as zero, and literals that are not. *)
Example zero_numbers :
  List.map zero_number [js "0"; js "-0"; js "0.000"; js "0e5"; js "1e-400"; js "2e-324"]
  = [true; true; true; true; true; true]
  /\ List.map zero_number [js "3e-324"; js "5e-324"; js "0.1"; js "42"; js "1e999"; js "12.5e-3"]
     = [false; false; false; false; false; false].
Proof. split; vm_compute; reflexivity. Qed.

(** The end-to-end scenario of the specification: on the seed document,
    [write_to_memory] with Flexbox and true, then [read_from_memory]. *)
Example flexbox_scenario :
  let srv := entries bare_config in
  let step1 := invoke srv (js "write_to_memory")
                 (write_args (JStr (js "Flexbox")) (JBool true)) seed_world in
  let step2 := invoke srv (js "read_from_memory") (JObj []) (snd step1) in
  fst step1
  = Return (text_content (JStr (js "Memory updated successfully for concept: Flexbox")))
  /\ fst step2
     = Return (text_content (JStr (jq "{
  'user_id': 'u1',
  'known_concepts': {
    'Flexbox': true
  }
}"))).
Proof. vm_compute. split; reflexivity. Qed.

(** ** Texts and objects *)

Lemma text_eqb_spec (a b : text) : reflect (a = b) (text_eqb a b).
Proof.
  revert b; induction a as [|x a IH]; intros [|y b]; simpl;
    try (constructor; congruence).
  destruct (N.eqb_spec x y) as [->|Hxy]; simpl.
  - destruct (IH b) as [->|Hab]; constructor; congruence.
  - constructor; congruence.
Qed.

Lemma text_eqb_refl (a : text) : text_eqb a a = true.
Proof. destruct (text_eqb_spec a a); congruence. Qed.

Lemma text_eqb_neq (a b : text) : a <> b -> text_eqb a b = false.
Proof. destruct (text_eqb_spec a b); congruence. Qed.

Lemma has_key_in (k : text) (o : obj) : has_key k o = true <-> In k (keys o).
Proof.
  induction o as [|[k' v] o IH]; simpl.
  - split; [discriminate | tauto].
  - rewrite orb_true_iff, IH.
    destruct (text_eqb_spec k k'); intuition congruence.
Qed.

Lemma has_key_lookup (k : text) (o : obj) :
  has_key k o = false <-> lookup k o = None.
Proof.
  induction o as [|[k' v] o IH]; simpl; [tauto|].
  destruct (text_eqb k k'); simpl; [split; discriminate | exact IH].
Qed.

Lemma lookup_replace_same (k : text) (v : json) (o : obj) :
  has_key k o = true -> lookup k (replace k v o) = Some v.
Proof.
  induction o as [|[k' v'] o IH]; simpl; [discriminate|].
  destruct (text_eqb k k') eqn:E; simpl; rewrite E; auto.
Qed.

Lemma lookup_replace_other (k k' : text) (v : json) (o : obj) :
  k' <> k -> lookup k' (replace k v o) = lookup k' o.
Proof.
  intros Hne; induction o as [|[k1 v1] o IH]; simpl; [reflexivity|].
  destruct (text_eqb_spec k k1) as [->|]; simpl.
  - now rewrite (text_eqb_neq Hne).
  - now rewrite IH.
Qed.

Lemma lookup_insert_index_same (n : N) (k : text) (v : json) (o : obj) :
  has_key k o = false -> lookup k (insert_index n k v o) = Some v.
Proof.
  induction o as [|[k' v'] o IH]; simpl; intros H.
  - now rewrite text_eqb_refl.
  - apply orb_false_iff in H as [H1 H2].
    destruct (array_index k') as [m|]; [destruct (n <? m)|]; simpl;
      rewrite ?text_eqb_refl, ?H1; auto.
Qed.

Lemma lookup_insert_index_other (n : N) (k k' : text) (v : json) (o : obj) :
  k' <> k -> lookup k' (insert_index n k v o) = lookup k' o.
Proof.
  intros Hne; induction o as [|[k1 v1] o IH]; simpl.
  - now rewrite text_eqb_neq.
  - destruct (array_index k1) as [m|]; [destruct (n <? m)|]; simpl;
      rewrite ?(text_eqb_neq Hne), ?IH; reflexivity.
Qed.

Lemma lookup_app (k : text) (o1 o2 : obj) :
  lookup k (o1 ++ o2) = match lookup k o1 with Some v => Some v | None => lookup k o2 end.
Proof.
  induction o1 as [|[k1 v1] o1 IH]; simpl; [reflexivity|].
  destruct (text_eqb k k1); auto.
Qed.

(** Reading back the key that was just assigned. *)
Lemma lookup_obj_set_same (k : text) (v : json) (o : obj) :
  lookup k (obj_set k v o) = Some v.
Proof.
  unfold obj_set. destruct (has_key k o) eqn:E.
  - now apply lookup_replace_same.
  - destruct (array_index k).
    + now apply lookup_insert_index_same.
    + rewrite lookup_app. apply has_key_lookup in E. rewrite E. simpl.
      now rewrite text_eqb_refl.
Qed.

(** An assignment leaves every other key as it was. *)
Lemma lookup_obj_set_other (k k' : text) (v : json) (o : obj) :
  k' <> k -> lookup k' (obj_set k v o) = lookup k' o.
Proof.
  intros Hne. unfold obj_set. destruct (has_key k o).
  - now apply lookup_replace_other.
  - destruct (array_index k).
    + now apply lookup_insert_index_other.
    + rewrite lookup_app. simpl. rewrite (text_eqb_neq Hne).
      now destruct (lookup k' o).
Qed.

(** ** Property order is kept by assignment *)

Lemma array_index_inj (k1 k2 : text) (n : N) :
  array_index k1 = Some n -> array_index k2 = Some n -> k1 = k2.
Proof.
  unfold array_index. intros H1 H2.
  destruct k1 as [|c1 k1]; [discriminate|]. destruct k2 as [|c2 k2]; [discriminate|].
  destruct (dec_value_from 0 (c1 :: k1)) as [n1|]; [|discriminate].
  destruct (dec_value_from 0 (c2 :: k2)) as [n2|]; [|discriminate].
  destruct (text_eqb_spec (to_dec n1) (c1 :: k1)) as [E1|]; [|discriminate].
  destruct (text_eqb_spec (to_dec n2) (c2 :: k2)) as [E2|]; [|discriminate].
  simpl in H1, H2.
  destruct (n1 <? 4294967295); [|discriminate].
  destruct (n2 <? 4294967295); [|discriminate].
  congruence.
Qed.

Lemma before_trans (k1 k2 k3 : text) : before k1 k2 -> before k2 k3 -> before k1 k3.
Proof.
  unfold before.
  destruct (array_index k3), (array_index k2), (array_index k1); try tauto; lia.
Qed.

Lemma keys_replace (k : text) (v : json) (o : obj) : keys (replace k v o) = keys o.
Proof.
  induction o as [|[k' v'] o IH]; simpl; [reflexivity|].
  destruct (text_eqb k k'); simpl; congruence.
Qed.

Lemma in_keys_insert_index (n : N) (k x : text) (v : json) (o : obj) :
  In x (keys (insert_index n k v o)) <-> x = k \/ In x (keys o).
Proof.
  induction o as [|[k' v'] o IH]; simpl.
  - intuition.
  - destruct (array_index k') as [m|]; [destruct (n <? m)|]; simpl;
      rewrite ?IH; intuition.
Qed.

Lemma wf_insert_index (n : N) (k : text) (v : json) (o : obj) :
  wf o -> ~ In k (keys o) -> array_index k = Some n -> wf (insert_index n k v o).
Proof.
  unfold wf. induction o as [|[k' v'] o IH]; simpl; intros [Hnd Hord] Hnin Hk.
  - split; [constructor; [tauto | constructor] | auto].
  - destruct Hord as [Hall Hord]. inversion Hnd as [|? ? Hk' Hnd']; subst.
    assert (Hne : k' <> k) by tauto.
    assert (Hnin' : ~ In k (keys o)) by tauto.
    destruct (array_index k') as [m|] eqn:Hm.
    + destruct (N.ltb_spec n m) as [Hlt|Hge]; simpl.
      * split; [constructor; simpl; tauto|].
        split; [|split; assumption].
        assert (Hkk' : before k k') by (unfold before; rewrite Hm, Hk; exact Hlt).
        constructor; [exact Hkk'|].
        eapply Forall_impl; [|exact Hall]. intros x. now apply before_trans.
      * destruct (IH (conj Hnd' Hord) Hnin' Hk) as [Hnd2 Hord2].
        split.
        -- constructor; [|exact Hnd2]. rewrite in_keys_insert_index. intuition.
        -- split; [|exact Hord2].
           apply Forall_forall. intros x Hx. apply in_keys_insert_index in Hx.
           destruct Hx as [->|Hx].
           ++ unfold before. rewrite Hk, Hm.
              assert (m <> n) by (intros ->; apply Hne; eapply array_index_inj; eauto).
              lia.
           ++ rewrite Forall_forall in Hall. auto.
    + simpl. split; [constructor; simpl; tauto|].
      split; [|split; assumption].
      constructor.
      * unfold before. now rewrite Hm.
      * eapply Forall_impl; [|exact Hall]. intros x. unfold before. rewrite Hm.
        destruct (array_index x); tauto.
Qed.

Lemma ordered_snoc (ks : list text) (k : text) :
  ordered ks -> Forall (fun x => before x k) ks -> ordered (ks ++ [k]).
Proof.
  induction ks as [|x ks IH]; simpl; intros Hord Hall.
  - auto.
  - destruct Hord as [Hx Hord]. inversion Hall; subst.
    split; [|auto]. apply Forall_app. split; [exact Hx | auto].
Qed.

Lemma keys_app (o1 o2 : obj) : keys (o1 ++ o2) = keys o1 ++ keys o2.
Proof. apply List.map_app. Qed.

Lemma wf_snoc (k : text) (v : json) (o : obj) :
  wf o -> ~ In k (keys o) -> Forall (fun x => before x k) (keys o) ->
  wf (o ++ [(k, v)]).
Proof.
  unfold wf. intros [Hnd Hord] Hnin Hall. rewrite keys_app. simpl. split.
  - apply NoDup_app.
    + exact Hnd.
    + constructor; [tauto | constructor].
    + intros x Hx [<-|[]]. tauto.
  - now apply ordered_snoc.
Qed.

(** Assignment keeps the property order. *)
Lemma wf_obj_set (k : text) (v : json) (o : obj) : wf o -> wf (obj_set k v o).
Proof.
  intros Hwf. unfold obj_set. destruct (has_key k o) eqn:E.
  - unfold wf. now rewrite keys_replace.
  - assert (Hnin : ~ In k (keys o)).
    { rewrite <- has_key_in. congruence. }
    destruct (array_index k) as [n|] eqn:Hk.
    + now apply wf_insert_index.
    + apply wf_snoc; auto.
      apply Forall_forall. intros x _. unfold before. now rewrite Hk.
Qed.

Lemma wf_nil : wf [].
Proof. split; [constructor | exact I]. Qed.

Lemma insert_index_last (n : N) (k : text) (v : json) (o : obj) :
  array_index k = Some n -> Forall (fun x => before x k) (keys o) ->
  insert_index n k v o = o ++ [(k, v)].
Proof.
  intros Hk. induction o as [|[k' v'] o IH]; simpl; intros Hall; [reflexivity|].
  inversion Hall as [|? ? Hb Hall']; subst.
  unfold before in Hb. rewrite Hk in Hb.
  destruct (array_index k') as [m|]; [|tauto].
  destruct (N.ltb_spec n m); [lia|]. now rewrite IH.
Qed.

Lemma ordered_app_inv (l1 l2 : list text) (k : text) :
  ordered (l1 ++ k :: l2) -> Forall (fun x => before x k) l1.
Proof.
  induction l1 as [|x l1 IH]; simpl; intros H; [constructor|].
  destruct H as [Hx H]. constructor; [|auto].
  rewrite Forall_forall in Hx. apply Hx. apply in_or_app. simpl. auto.
Qed.

Lemma fold_obj_set_wf (l acc : obj) :
  wf (acc ++ l) ->
  fold_left (fun a kv => obj_set (fst kv) (snd kv) a) l acc = acc ++ l.
Proof.
  revert acc. induction l as [|[k v] l IH]; intros acc Hwf; simpl.
  - now rewrite app_nil_r.
  - assert (Hset : obj_set k v acc = acc ++ [(k, v)]).
    { destruct Hwf as [Hnd Hord]. rewrite keys_app in Hnd, Hord. simpl in Hnd, Hord.
      assert (Hnin : ~ In k (keys acc)).
      { apply NoDup_remove_2 in Hnd. intros Hin. apply Hnd. apply in_or_app. auto. }
      unfold obj_set.
      destruct (has_key k acc) eqn:E; [apply has_key_in in E; tauto|].
      destruct (array_index k) as [n|] eqn:Hk; [|reflexivity].
      apply insert_index_last; [exact Hk|]. eapply ordered_app_inv; eauto. }
    rewrite Hset. rewrite IH; rewrite <- app_assoc; simpl; auto.
Qed.

(** Copying a well-ordered object gives the same object. *)
Lemma spread_wf (o : obj) : wf o -> spread o = o.
Proof. intros H. unfold spread. now rewrite fold_obj_set_wf. Qed.

(** ** Documents the schema accepts *)

Lemma collect_errs (fields : list (text * zresult)) (acc : obj) (errs : list issue) :
  errs <> [] -> exists e, e <> [] /\ collect fields acc errs = ZErr e.
Proof.
  revert acc errs. induction fields as [|[k [v|e]] r IH]; intros acc errs Hne; simpl.
  - destruct errs; [congruence|]. eexists; split; [|reflexivity]. discriminate.
  - now apply IH.
  - apply IH. destruct errs; [congruence | discriminate].
Qed.

Lemma collect_nonempty (fields : list (text * zresult)) (acc : obj) (errs e : list issue) :
  collect fields acc errs = ZErr e -> e <> [].
Proof.
  revert acc errs. induction fields as [|[k [v|e']] r IH]; intros acc errs; simpl.
  - destruct errs; [discriminate | congruence].
  - apply IH.
  - apply IH.
Qed.

Lemma record_fields_ok (at_path : list text) (o acc : obj) :
  Forall boolean_entry o ->
  collect (record_fields at_path o) acc [] = ZOk (JObj (fold_left keep o acc)).
Proof.
  revert acc. induction o as [|[k v] o IH]; intros acc H; simpl; [reflexivity|].
  inversion H as [|? ? [b Hb] H']; subst. simpl in Hb. subst v. simpl.
  now rewrite IH.
Qed.

Lemma record_fields_inv (at_path : list text) (o acc : obj) (v : json) :
  collect (record_fields at_path o) acc [] = ZOk v ->
  Forall boolean_entry o /\ v = JObj (fold_left keep o acc).
Proof.
  revert acc. induction o as [|[k x] o IH]; intros acc H; simpl in H.
  - split; [apply Forall_nil | simpl; congruence].
  - destruct x; simpl in H;
      try (match type of H with
           | collect ?f ?a ?e = _ =>
               destruct (@collect_errs f a e) as (e' & _ & He'); [discriminate|];
               rewrite He' in H; discriminate
           end).
    apply IH in H as [H1 H2]. split; [|exact H2].
    constructor; [now exists b | exact H1].
Qed.

Lemma wf_fold_assign (o acc : obj) : wf acc -> wf (fold_left assign o acc).
Proof.
  revert acc. induction o as [|kv o IH]; intros acc H; simpl; [exact H|].
  apply IH. now apply wf_obj_set.
Qed.

Lemma Forall_replace (P : text * json -> Prop) (k : text) (v : json) (o : obj) :
  (forall k', P (k', v)) -> Forall P o -> Forall P (replace k v o).
Proof.
  intros Hv. induction o as [|[k' v'] o IH]; simpl; intros H; [constructor|].
  inversion H; subst. destruct (text_eqb k k'); constructor; auto.
Qed.

Lemma Forall_insert_index (P : text * json -> Prop) (n : N) (k : text) (v : json) (o : obj) :
  P (k, v) -> Forall P o -> Forall P (insert_index n k v o).
Proof.
  intros Hv. induction o as [|[k' v'] o IH]; simpl; intros H.
  - constructor; auto.
  - inversion H; subst.
    destruct (array_index k'); [destruct (n <? n0)|]; repeat constructor; auto.
Qed.

Lemma boolean_obj_set (k : text) (b : bool) (o : obj) :
  Forall boolean_entry o -> Forall boolean_entry (obj_set k (JBool b) o).
Proof.
  intros H. unfold obj_set. destruct (has_key k o).
  - apply Forall_replace; [|exact H]. intros k'. now exists b.
  - destruct (array_index k).
    + apply Forall_insert_index; [now exists b | exact H].
    + apply Forall_app. split; [exact H|]. constructor; [now exists b | constructor].
Qed.

Lemma boolean_fold_assign (o acc : obj) :
  Forall boolean_entry o -> Forall boolean_entry acc ->
  Forall boolean_entry (fold_left assign o acc).
Proof.
  revert acc. induction o as [|[k v] o IH]; intros acc Ho Hacc; simpl; [exact Hacc|].
  inversion Ho as [|? ? [b Hb] Ho']; subst. simpl in Hb. subst v.
  apply IH; [exact Ho'|]. unfold assign. simpl. now apply boolean_obj_set.
Qed.

Lemma lookup_fold_assign (k : text) (o acc : obj) :
  lookup k (fold_left assign o acc)
  = match lookup k (rev o) with Some v => Some v | None => lookup k acc end.
Proof.
  revert acc. induction o as [|[k' v'] o IH]; intros acc; simpl; [reflexivity|].
  rewrite IH, lookup_app. destruct (lookup k (rev o)); [reflexivity|]. simpl.
  unfold assign; simpl.
  destruct (text_eqb_spec k k') as [->|Hne].
  - apply lookup_obj_set_same.
  - now apply lookup_obj_set_other.
Qed.

(** *** What a parse keeps *)

Lemma has_key_lookup_eq (k : text) (o : obj) :
  has_key k o = match lookup k o with Some _ => true | None => false end.
Proof.
  induction o as [|[k' v'] o IH]; simpl; [reflexivity|].
  destruct (text_eqb k k'); [reflexivity | exact IH].
Qed.

Lemma has_key_obj_set_other (k k' : text) (v : json) (o : obj) :
  k' <> k -> has_key k' (obj_set k v o) = has_key k' o.
Proof. intros H. rewrite !has_key_lookup_eq. now rewrite lookup_obj_set_other. Qed.

Lemma merge_other (acc : obj) (k : text) (v : json) :
  k <> proto_key -> merge acc k v = obj_set k v acc.
Proof. intros H. unfold merge. now rewrite (text_eqb_neq H). Qed.

Lemma merge_proto (acc : obj) (v : json) : merge acc proto_key v = acc.
Proof. unfold merge. now rewrite text_eqb_refl. Qed.

Lemma proto_not_index : array_index proto_key = None.
Proof. reflexivity. Qed.

Opaque proto_key.

Lemma has_key_proto_merge (acc : obj) (k : text) (v : json) :
  has_key proto_key (merge acc k v) = has_key proto_key acc.
Proof.
  unfold merge. destruct (text_eqb_spec k proto_key) as [->|Hne]; [reflexivity|].
  apply has_key_obj_set_other. congruence.
Qed.

Lemma has_key_proto_fold_keep (o acc : obj) :
  has_key proto_key (fold_left keep o acc) = has_key proto_key acc.
Proof.
  revert acc. induction o as [|[k v] o IH]; intros acc; simpl; [reflexivity|].
  rewrite IH. apply has_key_proto_merge.
Qed.

Lemma fold_keep_parsed (o acc : obj) :
  fold_left keep o acc = fold_left assign (parsed o) acc.
Proof.
  revert acc. induction o as [|[k v] o IH]; intros acc; simpl; [reflexivity|].
  unfold keep at 2, merge. simpl.
  destruct (text_eqb k proto_key); simpl; apply IH.
Qed.

Lemma parsed_same (o : obj) : has_key proto_key o = false -> parsed o = o.
Proof.
  induction o as [|[k v] o IH]; simpl; [reflexivity|]. intros H.
  apply orb_false_iff in H as [E H].
  assert (Ek : text_eqb k proto_key = false).
  { destruct (text_eqb_spec k proto_key) as [->|]; [|reflexivity].
    now rewrite text_eqb_refl in E. }
  rewrite Ek. simpl. now rewrite IH.
Qed.

Lemma has_key_proto_parsed (o : obj) : has_key proto_key (parsed o) = false.
Proof.
  induction o as [|[k v] o IH]; simpl; [reflexivity|].
  destruct (text_eqb_spec k proto_key) as [->|Hne]; simpl; [exact IH|].
  rewrite IH. rewrite text_eqb_neq; [reflexivity | congruence].
Qed.

Lemma in_keys_parsed (k : text) (o : obj) : In k (keys (parsed o)) -> In k (keys o).
Proof.
  induction o as [|[k' v'] o IH]; simpl; [tauto|].
  destruct (text_eqb k' proto_key); simpl; tauto.
Qed.

Lemma Forall_keys_parsed (P : text -> Prop) (o : obj) :
  Forall P (keys o) -> Forall P (keys (parsed o)).
Proof.
  rewrite !Forall_forall. intros H x Hx. apply H. now apply in_keys_parsed.
Qed.

Lemma wf_parsed (o : obj) : wf o -> wf (parsed o).
Proof.
  induction o as [|[k v] o IH]; [trivial|]. intros [Hn Ho].
  simpl in Hn, Ho. inversion Hn as [|? ? Hnin Hn']; subst. destruct Ho as [Hb Ho].
  specialize (IH (conj Hn' Ho)). simpl.
  destruct (text_eqb k proto_key); simpl; [exact IH|].
  destruct IH as [IH1 IH2]. split; simpl.
  - constructor; [|exact IH1]. intros Hin. apply Hnin. now apply in_keys_parsed.
  - split; [|exact IH2]. now apply Forall_keys_parsed.
Qed.

Lemma Forall_parsed (P : text * json -> Prop) (o : obj) :
  Forall P o -> Forall P (parsed o).
Proof.
  rewrite !Forall_forall. intros H x Hx. apply H.
  unfold parsed in Hx. now apply filter_In in Hx.
Qed.

Lemma lookup_parsed (k : text) (o : obj) :
  k <> proto_key -> lookup k (parsed o) = lookup k o.
Proof.
  intros Hne. induction o as [|[k' v'] o IH]; simpl; [reflexivity|].
  destruct (text_eqb_spec k' proto_key) as [->|Hk']; simpl.
  - rewrite (text_eqb_neq Hne). exact IH.
  - now rewrite IH.
Qed.

(** What a parse keeps of an object after one more assignment. *)
Lemma parsed_obj_set (k : text) (v : json) (o : obj) :
  has_key proto_key o = false ->
  parsed (obj_set k v o) = if text_eqb k proto_key then o else obj_set k v o.
Proof.
  intros H. destruct (text_eqb_spec k proto_key) as [->|Hne].
  - unfold obj_set. rewrite H, proto_not_index.
    unfold parsed. rewrite filter_app. fold (parsed o). rewrite (parsed_same _ H).
    simpl. rewrite text_eqb_refl. simpl. apply app_nil_r.
  - apply parsed_same. rewrite has_key_obj_set_other; [exact H | congruence].
Qed.

Lemma fold_keep_wf (o : obj) : wf o -> fold_left keep o [] = parsed o.
Proof.
  intros H. rewrite fold_keep_parsed. fold (spread (parsed o)).
  unfold assign. fold (spread (parsed o)). apply spread_wf. now apply wf_parsed.
Qed.

Lemma wf_fold_keep (o acc : obj) : wf acc -> wf (fold_left keep o acc).
Proof. intros H. rewrite fold_keep_parsed. now apply wf_fold_assign. Qed.

Lemma boolean_fold_keep (o acc : obj) :
  Forall boolean_entry o -> Forall boolean_entry acc ->
  Forall boolean_entry (fold_left keep o acc).
Proof.
  intros Ho Hacc. rewrite fold_keep_parsed.
  apply boolean_fold_assign; [now apply Forall_parsed | exact Hacc].
Qed.

Transparent proto_key.

Lemma document_built (s : text) (kc : obj) :
  obj_set (js "known_concepts") (JObj kc) (obj_set (js "user_id") (JStr s) [])
  = [(js "user_id", JStr s); (js "known_concepts", JObj kc)].
Proof. reflexivity. Qed.

Lemma document_merged (s : text) (kc : obj) :
  merge (merge [] (js "user_id") (JStr s)) (js "known_concepts") (JObj kc)
  = [(js "user_id", JStr s); (js "known_concepts", JObj kc)].
Proof. reflexivity. Qed.

Lemma zparse_MemorySchema_obj (o : obj) :
  zparse MemorySchema [] (Some (JObj o))
  = collect [(js "user_id", zparse ZString [js "user_id"] (lookup (js "user_id") o));
             (js "known_concepts",
              zparse (ZRecord ZString ZBoolean) [js "known_concepts"]
                (lookup (js "known_concepts") o))] [] [].
Proof. reflexivity. Qed.

Lemma zparse_record (at_path : list text) (o : obj) :
  zparse (ZRecord ZString ZBoolean) at_path (Some (JObj o))
  = collect (record_fields at_path o) [] [].
Proof. reflexivity. Qed.

(** What [MemorySchema.parse] accepts and what it returns. *)
Lemma MemorySchema_inv (j d : json) :
  zparse MemorySchema [] (Some j) = ZOk d ->
  exists o s kc,
    j = JObj o /\ lookup (js "user_id") o = Some (JStr s)
    /\ lookup (js "known_concepts") o = Some (JObj kc)
    /\ Forall boolean_entry kc
    /\ d = document s (fold_left keep kc []).
Proof.
  intros H. destruct j as [| | | | |o]; try discriminate.
  rewrite zparse_MemorySchema_obj in H.
  destruct (lookup (js "user_id") o) as [[| | |s| |]|] eqn:Hu;
    destruct (lookup (js "known_concepts") o) as [[| | | | |kc]|] eqn:Hk;
    rewrite ?zparse_record in H;
    try destruct (collect (record_fields _ kc) [] []) as [v|[|i e]] eqn:Hc;
    cbn [zparse collect app] in H; try discriminate.
  - apply record_fields_inv in Hc as [Hb ->].
    exists o, s, kc. rewrite document_merged in H. injection H as <-.
    repeat split; auto.
  - now apply collect_nonempty in Hc.
Qed.

(** A document with a well-ordered record of booleans is accepted; the
    result leaves [__proto__] out. *)
Lemma MemorySchema_parsed (s : text) (kc : obj) :
  wf kc -> Forall boolean_entry kc ->
  zparse MemorySchema [] (Some (document s kc)) = ZOk (document s (parsed kc)).
Proof.
  intros Hwf Hb. unfold document. rewrite zparse_MemorySchema_obj.
  change (lookup (js "user_id") _) with (Some (JStr s)).
  change (lookup (js "known_concepts") _) with (Some (JObj kc)).
  rewrite zparse_record, (record_fields_ok _ [] Hb).
  cbn [zparse collect]. rewrite document_merged.
  now rewrite fold_keep_wf.
Qed.

(** A document of the schema's shape is accepted as it is. *)
Lemma MemorySchema_accepts (s : text) (kc : obj) :
  wf kc -> Forall boolean_entry kc -> has_key proto_key kc = false ->
  zparse MemorySchema [] (Some (document s kc)) = ZOk (document s kc).
Proof.
  intros Hwf Hb Hp. rewrite MemorySchema_parsed by assumption.
  now rewrite parsed_same.
Qed.

Lemma MemorySchema_MemoryData (j d : json) :
  zparse MemorySchema [] (Some j) = ZOk d -> MemoryData d.
Proof.
  intros H. apply MemorySchema_inv in H as (o & s & kc & _ & _ & _ & Hb & ->).
  exists s, (fold_left keep kc []). split; [reflexivity|]. split; [|split].
  - apply wf_fold_keep, wf_nil.
  - apply boolean_fold_keep; [exact Hb | constructor].
  - apply has_key_proto_fold_keep.
Qed.

(** ** Reading back what [JSON.stringify] wrote *)

Lemma skip_ws_blank (b t : text) : blank b -> skip_ws (b ++ t) = skip_ws t.
Proof.
  induction 1 as [|c b Hc _ IH]; simpl; [reflexivity|]. now rewrite Hc.
Qed.

Lemma skip_ws_stop (c : char) (t : text) : is_ws c = false -> skip_ws (c :: t) = c :: t.
Proof. intros H. simpl. now rewrite H. Qed.

Lemma blank_repeat (n : nat) : blank (repeat 32 n).
Proof. induction n; simpl; constructor; auto. Qed.

Lemma hex_value_digit (d : N) : d < 16 -> hex_value (hex_digit d) = Some d.
Proof.
  intros H. unfold hex_digit, hex_value, is_digit.
  destruct (N.ltb_spec d 10).
  - replace ((48 <=? 48 + d) && (48 + d <=? 57)) with true.
    + f_equal. lia.
    + symmetry. apply andb_true_iff. split; apply N.leb_le; lia.
  - replace ((48 <=? 87 + d) && (87 + d <=? 57)) with false.
    + replace ((97 <=? 87 + d) && (87 + d <=? 102)) with true.
      * f_equal. lia.
      * symmetry. apply andb_true_iff. split; apply N.leb_le; lia.
    + symmetry. apply andb_false_iff. right. apply N.leb_gt. lia.
Qed.

Lemma hex4_unicode (c : char) :
  c < 65536 ->
  hex4 (hex_digit ((c / 4096) mod 16)) (hex_digit ((c / 256) mod 16))
       (hex_digit ((c / 16) mod 16)) (hex_digit (c mod 16)) = Some c.
Proof.
  intros H. unfold hex4.
  rewrite !hex_value_digit by (apply N.mod_lt; discriminate).
  f_equal.
  pose proof (N.div_mod c 16 ltac:(discriminate)) as E1.
  pose proof (N.div_mod (c / 16) 16 ltac:(discriminate)) as E2.
  pose proof (N.div_mod (c / 16 / 16) 16 ltac:(discriminate)) as E3.
  rewrite !N.Div0.div_div in E2, E3. rewrite N.Div0.div_div in E3.
  change (16 * 16) with 256 in *. change (256 * 16) with 4096 in *.
  assert (H4 : c / 4096 < 16) by (apply N.Div0.div_lt_upper_bound; lia).
  rewrite (N.mod_small (c / 4096) 16 H4) in *.
  lia.
Qed.

Lemma parse_chars_raw (c : char) (t : text) :
  c <> 34 -> c <> 92 -> 32 <= c -> parse_chars (c :: t) = cons_fst c (parse_chars t).
Proof.
  intros H1 H2 H3. simpl.
  destruct (N.eqb_spec c 34); [contradiction|].
  destruct (N.eqb_spec c 92); [contradiction|].
  destruct (N.ltb_spec c 32); [lia | reflexivity].
Qed.

Lemma parse_chars_unicode (c : char) (t : text) :
  c < 65536 -> parse_chars (unicode_escape c ++ t) = cons_fst c (parse_chars t).
Proof.
  intros H. unfold unicode_escape.
  cbn [app parse_chars]. change (92 =? 34) with false. change (92 =? 92) with true.
  change (117 =? 117) with true. cbv iota. now rewrite hex4_unicode.
Qed.

Lemma parse_chars_escape (c : char) (t : text) :
  parse_chars (escape_char c ++ t) = cons_fst c (parse_chars t).
Proof.
  unfold escape_char.
  destruct (N.eqb_spec c 8) as [->|]; [reflexivity|].
  destruct (N.eqb_spec c 9) as [->|]; [reflexivity|].
  destruct (N.eqb_spec c 10) as [->|]; [reflexivity|].
  destruct (N.eqb_spec c 12) as [->|]; [reflexivity|].
  destruct (N.eqb_spec c 13) as [->|]; [reflexivity|].
  destruct (N.eqb_spec c 34) as [->|]; [reflexivity|].
  destruct (N.eqb_spec c 92) as [->|]; [reflexivity|].
  destruct ((c <? 32) || is_surrogate c) eqn:E.
  - apply parse_chars_unicode. apply orb_true_iff in E as [E|E].
    + apply N.ltb_lt in E. lia.
    + unfold is_surrogate in E. apply andb_true_iff in E as [_ E].
      apply N.leb_le in E. lia.
  - apply orb_false_iff in E as [E _]. apply N.ltb_ge in E.
    now apply parse_chars_raw.
Qed.

Lemma high_surrogate_raw (c : char) :
  is_high_surrogate c = true -> c <> 34 /\ c <> 92 /\ 32 <= c /\ c < 65536.
Proof.
  unfold is_high_surrogate. intros H. apply andb_true_iff in H as [H1 H2].
  apply N.leb_le in H1, H2. lia.
Qed.

Lemma low_surrogate_raw (c : char) :
  is_low_surrogate c = true -> c <> 34 /\ c <> 92 /\ 32 <= c.
Proof.
  unfold is_low_surrogate. intros H. apply andb_true_iff in H as [H1 H2].
  apply N.leb_le in H1, H2. lia.
Qed.

(** A quoted string reads back as the string. *)
Lemma parse_chars_quote (s rest : text) :
  parse_chars (quote_chars s ++ 34 :: rest) = Some (s, rest).
Proof.
  cut ((forall rest, parse_chars (quote_chars s ++ 34 :: rest) = Some (s, rest))
       /\ (forall c rest, parse_chars (quote_chars (c :: s) ++ 34 :: rest)
                          = Some (c :: s, rest))).
  { intros [H _]. apply H. }
  clear rest. induction s as [|d s [IH1 IH2]].
  - split; [reflexivity|]. intros c rest. simpl.
    destruct (is_high_surrogate c) eqn:Hc.
    + destruct (high_surrogate_raw c Hc) as (_ & _ & _ & Hlt).
      now rewrite parse_chars_unicode.
    + now rewrite <- app_assoc, parse_chars_escape.
  - split; [apply IH2|]. intros c rest.
    change (quote_chars (c :: d :: s))
      with (if is_high_surrogate c then
              if is_low_surrogate d then c :: d :: quote_chars s
              else unicode_escape c ++ quote_chars (d :: s)
            else escape_char c ++ quote_chars (d :: s)).
    destruct (is_high_surrogate c) eqn:Hc.
    + destruct (high_surrogate_raw c Hc) as (Hc1 & Hc2 & Hc3 & Hlt).
      destruct (is_low_surrogate d) eqn:Hd.
      * destruct (low_surrogate_raw d Hd) as (Hd1 & Hd2 & Hd3).
        cbn [app]. rewrite parse_chars_raw, parse_chars_raw, IH1 by assumption.
        reflexivity.
      * rewrite <- app_assoc, parse_chars_unicode, IH2 by assumption. reflexivity.
    + rewrite <- app_assoc, parse_chars_escape, IH2. reflexivity.
Qed.

Lemma parse_members_quote (f : nat) (acc : obj) (k t : text) :
  parse_members (S f) acc (quote k ++ 58 :: t)
  = match parse_value f (skip_ws t) with
    | Some (v, r) => after_member f (obj_set k v acc) r
    | None => None
    end.
Proof.
  unfold quote. cbn [app parse_members]. change (34 =? 34) with true. cbv iota.
  rewrite <- app_assoc. cbn [app]. rewrite parse_chars_quote.
  rewrite skip_ws_stop by reflexivity. change (58 =? 58) with true. cbv iota.
  reflexivity.
Qed.

Lemma parse_value_string (f : nat) (s t : text) :
  parse_value (S f) (quote s ++ t) = Some (JStr s, t).
Proof.
  unfold quote. cbn [app parse_value].
  change (34 =? 123) with false. change (34 =? 91) with false.
  change (34 =? 34) with true. cbv iota.
  rewrite <- app_assoc. cbn [app]. now rewrite parse_chars_quote.
Qed.

Lemma parse_value_boolean (f : nat) (gap ind : text) (b : bool) (t : text) :
  parse_value (S f) (serialize gap ind (JBool b) ++ t) = Some (JBool b, t).
Proof. destruct b; reflexivity. Qed.

Lemma skip_ws_boolean (gap ind : text) (b : bool) (t : text) :
  skip_ws (serialize gap ind (JBool b) ++ t) = serialize gap ind (JBool b) ++ t.
Proof. destruct b; reflexivity. Qed.

Lemma colon_blank (gap : text) : exists b, colon gap = 58 :: b /\ blank b.
Proof.
  destruct gap; simpl; eexists; (split; [reflexivity|]).
  - constructor.
  - repeat constructor.
Qed.

Lemma skip_ws_quote (k t : text) : skip_ws (quote k ++ t) = quote k ++ t.
Proof. reflexivity. Qed.

Lemma skip_ws_member (gap ind : text) (kv : text * json) (t : text) :
  skip_ws (member_text gap ind kv ++ t) = member_text gap ind kv ++ t.
Proof. reflexivity. Qed.

Lemma parse_members_booleans (gap ind b1 b2 : text) (kc : obj) :
  blank b1 -> blank b2 -> Forall boolean_entry kc -> kc <> [] ->
  forall (f : nat) (acc : obj) (rest : text),
    (List.length kc < f)%nat ->
    parse_members f acc
      (join (44 :: b1) (List.map (member_text gap ind) kc) ++ b2 ++ 125 :: rest)
    = Some (JObj (fold_left assign kc acc), rest).
Proof.
  intros Hb1 Hb2 Hall. induction kc as [|[k v] kc IH]; intros Hne f acc rest Hf;
    [congruence|].
  inversion Hall as [|? ? [b Hv] Hall']; subst. simpl in Hv. subst v.
  destruct f as [|f]; [inversion Hf|]. simpl in Hf.
  destruct f as [|f]; [lia|].
  destruct (colon_blank gap) as (cb & Hcol & Hcb).
  assert (Hstep : forall tail,
             parse_members (S (S f)) acc (member_text gap ind (k, JBool b) ++ tail)
             = after_member (S f) (obj_set k (JBool b) acc) tail).
  { intros tail. unfold member_text. cbn [fst snd]. rewrite Hcol.
    rewrite <- !app_assoc. cbn [app]. rewrite parse_members_quote.
    rewrite skip_ws_blank, skip_ws_boolean, parse_value_boolean by assumption.
    reflexivity. }
  destruct kc as [|kv' kc].
  - cbn [List.map join]. rewrite Hstep. unfold after_member.
    rewrite skip_ws_blank by assumption. rewrite skip_ws_stop by reflexivity.
    reflexivity.
  - change (join (44 :: b1) (List.map (member_text gap ind) ((k, JBool b) :: kv' :: kc)))
      with (member_text gap ind (k, JBool b) ++ (44 :: b1)
              ++ join (44 :: b1) (List.map (member_text gap ind) (kv' :: kc))).
    rewrite <- !app_assoc. rewrite Hstep. unfold after_member.
    cbn [app]. rewrite skip_ws_stop by reflexivity.
    change (44 =? 44) with true. cbv iota.
    rewrite skip_ws_blank by assumption.
    assert (Hskip : forall tail,
               skip_ws (join (44 :: b1) (List.map (member_text gap ind) (kv' :: kc)) ++ tail)
               = join (44 :: b1) (List.map (member_text gap ind) (kv' :: kc)) ++ tail).
    { intros tail. destruct kc; cbn [List.map join]; rewrite <- ?app_assoc;
        apply skip_ws_member. }
    rewrite Hskip. rewrite IH; [reflexivity | exact Hall' | discriminate |].
    simpl in *. lia.
Qed.

Lemma serialize_object (gap ind : text) (o : obj) :
  serialize gap ind (JObj o)
  = bracket 123 125 gap ind (List.map (member_text gap (ind ++ gap)) o).
Proof. reflexivity. Qed.

Lemma join_members_head (gap ind sep : text) (kv : text * json) (kc : obj) :
  exists tl, join sep (List.map (member_text gap ind) (kv :: kc)) = 34 :: tl.
Proof.
  destruct kc; cbn [List.map join]; unfold member_text, quote; cbn [app];
    eexists; reflexivity.
Qed.

Lemma length_join_members (gap ind sep : text) (kc : obj) :
  (List.length kc <= List.length (join sep (List.map (member_text gap ind) kc)))%nat.
Proof.
  induction kc as [|kv kc IH]; [simpl; lia|].
  assert (H : (1 <= List.length (member_text gap ind kv))%nat).
  { unfold member_text, quote. simpl. lia. }
  destruct kc as [|kv' kc].
  - simpl in *. lia.
  - change (join sep (List.map (member_text gap ind) (kv :: kv' :: kc)))
      with (member_text gap ind kv ++ sep
              ++ join sep (List.map (member_text gap ind) (kv' :: kc))).
    rewrite !length_app. simpl List.length in *. lia.
Qed.

(** The layout [bracket] gives a non-empty object: [b0] after the opening
    brace and after every comma, [b2] before the closing brace. *)
Lemma bracket_layout (gap ind : text) (parts : list text) :
  blank gap -> blank ind -> parts <> [] ->
  exists b0 b2,
    blank b0 /\ blank b2
    /\ bracket 123 125 gap ind parts = 123 :: b0 ++ join (44 :: b0) parts ++ b2 ++ [125].
Proof.
  intros Hg Hi Hne. destruct parts as [|p parts]; [congruence|].
  destruct gap as [|g gap].
  - exists [], []. repeat split; constructor.
  - exists (10 :: ind ++ g :: gap), (10 :: ind). split; [|split].
    + constructor; [reflexivity|]. apply Forall_app. split; assumption.
    + constructor; [reflexivity | assumption].
    + cbn [bracket app]. rewrite <- !app_assoc. reflexivity.
Qed.

Lemma length_serialize_object (gap ind : text) (kc : obj) :
  blank gap -> blank ind ->
  (List.length kc <= List.length (serialize gap ind (JObj kc)))%nat.
Proof.
  intros Hg Hi. rewrite serialize_object. destruct kc as [|kv kc]; [simpl; lia|].
  destruct (@bracket_layout gap ind (List.map (member_text gap (ind ++ gap)) (kv :: kc)) Hg Hi)
    as (b0 & b2 & _ & _ & ->); [discriminate|].
  pose proof (length_join_members gap (ind ++ gap) (44 :: b0) (kv :: kc)).
  cbn [List.length] in *. rewrite !length_app. lia.
Qed.

(** An object of booleans reads back as itself. *)
Lemma parse_value_boolean_object (gap ind : text) (kc : obj) (f : nat) (rest : text) :
  blank gap -> blank ind -> wf kc -> Forall boolean_entry kc ->
  (List.length kc < f)%nat ->
  parse_value (S f) (serialize gap ind (JObj kc) ++ rest) = Some (JObj kc, rest).
Proof.
  intros Hg Hi Hwf Hb Hf. rewrite serialize_object.
  destruct kc as [|kv kc]; [reflexivity|].
  destruct (@bracket_layout gap ind (List.map (member_text gap (ind ++ gap)) (kv :: kc)) Hg Hi)
    as (b0 & b2 & Hb0 & Hb2 & ->); [discriminate|].
  destruct (join_members_head gap (ind ++ gap) (44 :: b0) kv kc) as (tl & Htl).
  cbn [app parse_value]. change (123 =? 123) with true. cbv iota.
  rewrite <- !app_assoc. rewrite skip_ws_blank by assumption.
  pose proof (@parse_members_booleans gap (ind ++ gap) b0 b2 (kv :: kc) Hb0 Hb2 Hb
                ltac:(discriminate) f [] rest Hf) as Hp.
  rewrite Htl in Hp |- *. cbn [app] in Hp |- *.
  rewrite skip_ws_stop by reflexivity. change (34 =? 125) with false. cbv iota.
  etransitivity; [exact Hp|]. f_equal. f_equal. f_equal.
  apply (@fold_obj_set_wf (kv :: kc) []). exact Hwf.
Qed.

(** The text of a document: [b0] after the opening brace and the comma,
    [cb] after the colons, [b2] before the closing brace. *)
Lemma serialize_document (gap : text) (s : text) (kc : obj) :
  blank gap ->
  exists b0 cb b2,
    blank b0 /\ blank cb /\ blank b2
    /\ serialize gap [] (document s kc)
       = 123 :: b0 ++ quote (js "user_id") ++ 58 :: cb ++ quote s
           ++ 44 :: b0 ++ quote (js "known_concepts") ++ 58 :: cb
           ++ serialize gap gap (JObj kc) ++ b2 ++ [125].
Proof.
  intros Hg. destruct gap as [|g gap].
  - exists [], [], []. repeat split; try constructor.
    unfold document. cbn [serialize List.map fst snd bracket join colon app].
    repeat (rewrite <- app_assoc; cbn [app]). reflexivity.
  - exists (10 :: g :: gap), [32], [10]. repeat split.
    + constructor; [reflexivity | assumption].
    + repeat constructor.
    + repeat constructor.
    + unfold document. cbn [serialize List.map fst snd bracket join colon app].
      repeat (rewrite <- app_assoc; cbn [app]). reflexivity.
Qed.

(** [JSON.parse] gives back the document [JSON.stringify] wrote, with or
    without indentation. *)
Lemma parse_serialize_document (gap s : text) (kc : obj) :
  blank gap -> wf kc -> Forall boolean_entry kc ->
  JSON_parse (serialize gap [] (document s kc)) = Some (document s kc).
Proof.
  intros Hg Hwf Hb. unfold JSON_parse.
  destruct (serialize_document s kc Hg) as (b0 & cb & b2 & Hb0 & Hcb & Hb2 & E).
  pose proof (length_serialize_object kc Hg Hg) as Hlen.
  remember (serialize gap [] (document s kc)) as t eqn:Ht. clear Ht. subst t.
  remember (serialize gap gap (JObj kc)) as ot eqn:Hot.
  match goal with
  | |- context [parse_value (S ?m)] => remember m as n eqn:Hn0
  end.
  assert (Hn : (List.length kc + 5 <= n)%nat).
  { subst n. unfold quote. cbn [List.length]. rewrite !length_app. cbn [List.length].
    rewrite !length_app. cbn [List.length]. rewrite !length_app. cbn [List.length].
    rewrite !length_app. cbn [List.length]. lia. }
  assert (Hn' : exists f, n = S (S (S (S f))) /\ (List.length kc < S f)%nat).
  { exists (n - 4)%nat. lia. }
  clear Hn0 Hn. destruct Hn' as (f & -> & Hf).
  rewrite skip_ws_stop by reflexivity.
  cbn [parse_value]. change (123 =? 123) with true. cbv iota.
  rewrite skip_ws_blank, skip_ws_quote by assumption.
  unfold quote at 1. cbn [app]. change (34 =? 125) with false. cbv iota.
  change (34 :: (quote_chars (js "user_id") ++ [34]) ++ ?x)
    with (quote (js "user_id") ++ x).
  rewrite parse_members_quote, skip_ws_blank, skip_ws_quote, parse_value_string
    by assumption.
  unfold after_member. rewrite skip_ws_stop by reflexivity.
  change (44 =? 44) with true. cbv iota.
  rewrite skip_ws_blank, skip_ws_quote by assumption.
  rewrite parse_members_quote, skip_ws_blank by assumption.
  assert (Hskip : forall x, skip_ws (ot ++ x) = ot ++ x).
  { intros x. subst ot. rewrite serialize_object. destruct kc; [reflexivity|].
    destruct gap; reflexivity. }
  rewrite Hskip. subst ot.
  rewrite parse_value_boolean_object by assumption.
  unfold after_member. rewrite skip_ws_blank by assumption.
  rewrite skip_ws_stop by reflexivity.
  change (125 =? 44) with false. change (125 =? 125) with true. cbv iota.
  rewrite document_built. reflexivity.
Qed.

(** ** The fuel of the parser is immaterial *)

Lemma skip_ws_le (t : text) : (List.length (skip_ws t) <= List.length t)%nat.
Proof.
  induction t as [|c t IH]; simpl; [lia|].
  destruct (is_ws c); simpl; lia.
Qed.

Lemma cons_fst_inv {A B} (a : A) (p : option (list A * B)) (l : list A) (b : B) :
  cons_fst a p = Some (l, b) -> exists l', p = Some (l', b) /\ l = a :: l'.
Proof.
  destruct p as [[l' b']|]; simpl; [|discriminate].
  intros [= <- <-]. now exists l'.
Qed.

Lemma parse_chars_lt (t s r : text) :
  parse_chars t = Some (s, r) -> (List.length r < List.length t)%nat.
Proof.
  remember (List.length t) as n eqn:Hn.
  assert (Hle : (List.length t <= n)%nat) by lia. clear Hn.
  revert t s r Hle.
  induction n as [|n IH]; intros t s r Hle H.
  - destruct t; [discriminate | simpl in Hle; lia].
  - destruct t as [|c t]; [discriminate|]. simpl in Hle. simpl in H.
    destruct (c =? 34).
    { injection H as <- <-. simpl. lia. }
    destruct (c =? 92).
    + destruct t as [|e t]; [discriminate|].
      destruct (e =? 117).
      * destruct t as [|h1 [|h2 [|h3 [|h4 t]]]]; try discriminate.
        destruct (hex4 h1 h2 h3 h4); [|discriminate].
        apply cons_fst_inv in H as (l' & H & _).
        apply IH in H; simpl in *; lia.
      * destruct (unescape e); [|discriminate].
        apply cons_fst_inv in H as (l' & H & _).
        apply IH in H; simpl in *; lia.
    + destruct (c <? 32); [discriminate|].
      apply cons_fst_inv in H as (l' & H & _).
      apply IH in H; simpl in *; lia.
Qed.

Lemma strip_prefix_le (p t r : text) :
  strip_prefix p t = Some r -> (List.length r <= List.length t)%nat.
Proof.
  revert t. induction p as [|x p IH]; intros t; simpl.
  - intros [= <-]. lia.
  - destruct t as [|y t]; [discriminate|]. destruct (x =? y); [|discriminate].
    intros H. apply IH in H. simpl. lia.
Qed.

Lemma span_digits_le (t d r : text) :
  span_digits t = (d, r) -> (List.length r <= List.length t)%nat.
Proof.
  revert d r. induction t as [|c t IH]; intros d r; simpl.
  - intros [= <- <-]. simpl. lia.
  - destruct (is_digit c).
    + destruct (span_digits t) as [d' r'] eqn:E. intros [= <- <-].
      specialize (IH _ _ eq_refl). lia.
    + intros [= <- <-]. simpl. lia.
Qed.

Lemma digits1_le (t d r : text) :
  digits1 t = Some (d, r) -> (List.length r <= List.length t)%nat.
Proof.
  unfold digits1. destruct (span_digits t) as [d' r'] eqn:E.
  apply span_digits_le in E. destruct d'; [discriminate|]. intros [= <- <-]. exact E.
Qed.

Lemma parse_number_le (t l r : text) :
  parse_number t = Some (l, r) -> (List.length r <= List.length t)%nat.
Proof.
  unfold parse_number.
  set (st := match t with
             | c :: r0 => if c =? 45 then ([45], r0) else ([], t)
             | [] => ([], t)
             end).
  assert (H1 : (List.length (snd st) <= List.length t)%nat).
  { subst st. destruct t as [|c t']; [simpl; lia|]. destruct (c =? 45); simpl; lia. }
  destruct st as [sign t1]. cbn [snd] in H1.
  set (int := match t1 with
              | c :: r0 => if c =? 48 then Some ([48], r0) else digits1 t1
              | [] => None
              end).
  assert (H2 : forall i t2, int = Some (i, t2) -> (List.length t2 <= List.length t1)%nat).
  { subst int. intros i t2. destruct t1 as [|c t1']; [discriminate|].
    destruct (c =? 48).
    - intros [= <- <-]. simpl. lia.
    - apply digits1_le. }
  destruct int as [[i t2]|]; [|discriminate]. specialize (H2 _ _ eq_refl).
  set (frac := match t2 with
               | c :: r0 =>
                   if c =? 46 then
                     match digits1 r0 with
                     | Some (d, r') => Some (46 :: d, r')
                     | None => None
                     end
                   else Some ([], t2)
               | [] => Some ([], t2)
               end).
  assert (H3 : forall f t3, frac = Some (f, t3) -> (List.length t3 <= List.length t2)%nat).
  { subst frac. intros f t3. destruct t2 as [|c t2']; [intros [= <- <-]; lia|].
    destruct (c =? 46).
    - destruct (digits1 t2') as [[d r']|] eqn:E; [|discriminate].
      intros [= <- <-]. apply digits1_le in E. simpl. lia.
    - intros [= <- <-]. lia. }
  destruct frac as [[f t3]|]; [|discriminate]. specialize (H3 _ _ eq_refl).
  set (exp := match t3 with
              | c :: r0 =>
                  if (c =? 101) || (c =? 69) then
                    let (s, r1) := match r0 with
                                   | c' :: r' =>
                                       if (c' =? 43) || (c' =? 45)
                                       then ([c'], r') else ([], r0)
                                   | [] => ([], r0)
                                   end in
                    match digits1 r1 with
                    | Some (d, r2) => Some (c :: s ++ d, r2)
                    | None => None
                    end
                  else Some ([], t3)
              | [] => Some ([], t3)
              end).
  assert (H4 : forall e t4, exp = Some (e, t4) -> (List.length t4 <= List.length t3)%nat).
  { subst exp. intros e t4. destruct t3 as [|c t3']; [intros [= <- <-]; lia|].
    destruct ((c =? 101) || (c =? 69)).
    - set (sg := match t3' with
                 | c' :: r' => if (c' =? 43) || (c' =? 45) then ([c'], r') else ([], t3')
                 | [] => ([], t3')
                 end).
      assert (Hs : (List.length (snd sg) <= List.length t3')%nat).
      { subst sg. destruct t3' as [|c' r']; [simpl; lia|].
        destruct ((c' =? 43) || (c' =? 45)); simpl; lia. }
      destruct sg as [s r1]. cbn [snd] in Hs.
      destruct (digits1 r1) as [[d r2]|] eqn:E; [|discriminate].
      intros [= <- <-]. apply digits1_le in E. simpl. lia.
    - intros [= <- <-]. lia. }
  destruct exp as [[e t4]|]; [|discriminate]. specialize (H4 _ _ eq_refl).
  intros [= <- <-]. lia.
Qed.

Lemma skip_ws_eq_le (t t' : text) :
  skip_ws t = t' -> (List.length t' <= List.length t)%nat.
Proof. intros <-. apply skip_ws_le. Qed.

(** A parse that succeeds with some fuel succeeds, with the same result,
    with any fuel above the number of characters it consumes. *)
Lemma parse_fuel (f : nat) :
  (forall t v r,
      parse_value f t = Some (v, r) ->
      (List.length r <= List.length t)%nat
      /\ forall f', (List.length t - List.length r < f')%nat ->
                    parse_value f' t = Some (v, r))
  /\ (forall acc t v r,
         parse_members f acc t = Some (v, r) ->
         (List.length r <= List.length t)%nat
         /\ forall f', (List.length t - List.length r < f')%nat ->
                       parse_members f' acc t = Some (v, r))
  /\ (forall acc t v r,
         parse_elements f acc t = Some (v, r) ->
         (List.length r <= List.length t)%nat
         /\ forall f', (List.length t - List.length r < f')%nat ->
                       parse_elements f' acc t = Some (v, r)).
Proof.
  induction f as [|f (IHv & IHm & IHe)]; [repeat split; discriminate|].
  split; [|split].
  - (* parse_value *)
    intros t v r H. destruct t as [|c t0]; [discriminate|].
    cbn [parse_value] in H.
    destruct (c =? 123) eqn:E1.
    { destruct (skip_ws t0) as [|c' r'] eqn:Es; [discriminate|].
      apply skip_ws_eq_le in Es as Hs. cbn [List.length] in Hs.
      destruct (c' =? 125) eqn:E2.
      - injection H as <- <-. cbn [List.length]. split; [lia|].
        intros [|f'] Hf; [lia|]. cbn [parse_value]. now rewrite E1, Es, E2.
      - apply IHm in H as [Hl Hk]. cbn [List.length] in *. split; [lia|].
        intros [|f'] Hf; [lia|]. cbn [parse_value]. rewrite E1, Es, E2.
        apply Hk. cbn [List.length]. lia. }
    destruct (c =? 91) eqn:E3.
    { destruct (skip_ws t0) as [|c' r'] eqn:Es; [discriminate|].
      apply skip_ws_eq_le in Es as Hs. cbn [List.length] in Hs.
      destruct (c' =? 93) eqn:E2.
      - injection H as <- <-. cbn [List.length]. split; [lia|].
        intros [|f'] Hf; [lia|]. cbn [parse_value]. now rewrite E1, E3, Es, E2.
      - apply IHe in H as [Hl Hk]. cbn [List.length] in *. split; [lia|].
        intros [|f'] Hf; [lia|]. cbn [parse_value]. rewrite E1, E3, Es, E2.
        apply Hk. cbn [List.length]. lia. }
    destruct (c =? 34) eqn:E4.
    { destruct (parse_chars t0) as [[s r']|] eqn:Ec; [|discriminate].
      injection H as <- <-. apply parse_chars_lt in Ec as Hl.
      cbn [List.length]. split; [lia|].
      intros [|f'] Hf; [lia|]. cbn [parse_value]. now rewrite E1, E3, E4, Ec. }
    destruct (c =? 116) eqn:E5.
    { destruct (strip_prefix (js "rue") t0) as [r'|] eqn:Ep; [|discriminate].
      injection H as <- <-. apply strip_prefix_le in Ep as Hl.
      cbn [List.length]. split; [lia|].
      intros [|f'] Hf; [lia|]. cbn [parse_value]. now rewrite E1, E3, E4, E5, Ep. }
    destruct (c =? 102) eqn:E6.
    { destruct (strip_prefix (js "alse") t0) as [r'|] eqn:Ep; [|discriminate].
      injection H as <- <-. apply strip_prefix_le in Ep as Hl.
      cbn [List.length]. split; [lia|].
      intros [|f'] Hf; [lia|]. cbn [parse_value]. now rewrite E1, E3, E4, E5, E6, Ep. }
    destruct (c =? 110) eqn:E7.
    { destruct (strip_prefix (js "ull") t0) as [r'|] eqn:Ep; [|discriminate].
      injection H as <- <-. apply strip_prefix_le in Ep as Hl.
      cbn [List.length]. split; [lia|].
      intros [|f'] Hf; [lia|]. cbn [parse_value].
      now rewrite E1, E3, E4, E5, E6, E7, Ep. }
    destruct (parse_number (c :: t0)) as [[l r']|] eqn:En; [|discriminate].
    injection H as <- <-. apply parse_number_le in En as Hl. split; [exact Hl|].
    intros [|f'] Hf; [lia|]. cbn [parse_value].
    now rewrite E1, E3, E4, E5, E6, E7, En.
  - (* parse_members *)
    intros acc t v r H. destruct t as [|c r0]; [discriminate|].
    cbn [parse_members] in H.
    destruct (c =? 34) eqn:E1; [|discriminate].
    destruct (parse_chars r0) as [[k r1]|] eqn:Ec; [|discriminate].
    apply parse_chars_lt in Ec as L1.
    destruct (skip_ws r1) as [|c1 r2] eqn:Es1; [discriminate|].
    apply skip_ws_eq_le in Es1 as L2. cbn [List.length] in L2.
    destruct (c1 =? 58) eqn:E2; [|discriminate].
    destruct (parse_value f (skip_ws r2)) as [[v0 r3]|] eqn:Ev; [|discriminate].
    apply IHv in Ev as [L3 Kv]. pose proof (skip_ws_le r2) as L3'.
    destruct (skip_ws r3) as [|c2 r4] eqn:Es2; [discriminate|].
    apply skip_ws_eq_le in Es2 as L4. cbn [List.length] in L4.
    destruct (c2 =? 44) eqn:E3.
    + apply IHm in H as [L5 Km]. pose proof (skip_ws_le r4) as L5'.
      cbn [List.length]. split; [lia|].
      intros [|f'] Hf; [lia|]. cbn [parse_members]. rewrite E1, Ec, Es1, E2.
      rewrite Kv by (cbn [List.length] in Hf; lia). rewrite Es2, E3.
      apply Km. cbn [List.length] in Hf. lia.
    + destruct (c2 =? 125) eqn:E4; [|discriminate].
      injection H as <- <-. cbn [List.length]. split; [lia|].
      intros [|f'] Hf; [lia|]. cbn [parse_members]. rewrite E1, Ec, Es1, E2.
      rewrite Kv by (cbn [List.length] in Hf; lia). now rewrite Es2, E3, E4.
  - (* parse_elements *)
    intros acc t v r H. cbn [parse_elements] in H.
    destruct (parse_value f t) as [[v0 r1]|] eqn:Ev; [|discriminate].
    apply IHv in Ev as [L1 Kv].
    destruct (skip_ws r1) as [|c r2] eqn:Es; [discriminate|].
    apply skip_ws_eq_le in Es as L2. cbn [List.length] in L2.
    destruct (c =? 44) eqn:E1.
    + apply IHe in H as [L3 Ke]. pose proof (skip_ws_le r2) as L3'.
      split; [lia|].
      intros [|f'] Hf; [lia|]. cbn [parse_elements].
      rewrite Kv by lia. rewrite Es, E1. apply Ke. lia.
    + destruct (c =? 93) eqn:E2; [|discriminate].
      injection H as <- <-. split; [lia|].
      intros [|f'] Hf; [lia|]. cbn [parse_elements].
      rewrite Kv by lia. now rewrite Es, E1, E2.
Qed.

(** [JSON_parse] runs with enough fuel: no amount of fuel makes the parser
    accept a text that [JSON_parse] rejects, or read another value. *)
Lemma JSON_parse_fuel (t : text) (f : nat) (v : json) (r : text) :
  parse_value f (skip_ws t) = Some (v, r) ->
  parse_value (S (List.length t)) (skip_ws t) = Some (v, r).
Proof.
  intros H. destruct (parse_fuel f) as (Hv & _ & _).
  apply Hv in H as [Hl Hk]. apply Hk.
  pose proof (skip_ws_le t). lia.
Qed.

(** ** The knowledge store *)

(** [readMemory], case by case. *)
Lemma readMemory_run (w : world) :
  readMemory w
  = match memory_file w with
    | None =>
        (Throw (ReadMemoryError ENOENT),
         logged [read_failure_label; ReadFile memoryFilePath] w)
    | Some data =>
        match JSON_parse data with
        | None =>
            (Throw (ReadMemoryError SyntaxError),
             logged [read_failure_label; ReadFile memoryFilePath] w)
        | Some j =>
            match zparse MemorySchema [] (Some j) with
            | ZErr issues =>
                (Throw (ReadMemoryError (ZodError issues)),
                 logged [read_failure_label; ReadFile memoryFilePath] w)
            | ZOk d => (Return d, logged [ReadFile memoryFilePath] w)
            end
        end
    end.
Proof.
  unfold readMemory, try_catch, bind, fs_readFile, bind, emit, JSON_parse_or_throw,
    parse, console_error, emit, throw, ret, logged.
  cbn [memory_file provider trace app].
  destruct (memory_file w) as [data|]; [|reflexivity].
  destruct (JSON_parse data) as [j|]; [|reflexivity].
  destruct (zparse MemorySchema [] (Some j)); reflexivity.
Qed.

(** [writeMemory], case by case. *)
Lemma writeMemory_run (newData : json) (w : world) :
  writeMemory newData w
  = match zparse MemorySchema [] (Some newData) with
    | ZErr issues =>
        (Throw (WriteMemoryError (ZodError issues)), logged [write_failure_label] w)
    | ZOk _ => (Return tt, written (JSON_stringify newData 2) w)
    end.
Proof.
  unfold writeMemory, try_catch, bind, fs_writeFile, bind, emit, parse,
    console_error, emit, throw, ret, logged, written.
  cbn [memory_file provider trace app].
  destruct (zparse MemorySchema [] (Some newData)); reflexivity.
Qed.

Lemma writes_logged (es : list event) (w : world) :
  writes es = [] -> writes (trace (logged es w)) = writes (trace w).
Proof.
  intros H. unfold logged, writes in *. cbn [trace].
  now rewrite List.filter_app, H.
Qed.

(** The stored document of a file [JSON.stringify] wrote: what was
    written, less an entry under [__proto__]. *)
Lemma stored_document_stringify_parsed (space : nat) (s : text) (kc : obj) :
  wf kc -> Forall boolean_entry kc ->
  stored_document (JSON_stringify (document s kc) space) = Some (document s (parsed kc)).
Proof.
  intros Hwf Hb. unfold stored_document, JSON_stringify.
  rewrite parse_serialize_document; [|apply blank_repeat|assumption|assumption].
  now rewrite MemorySchema_parsed.
Qed.

(** A document of the schema that [JSON.stringify] wrote is the stored
    document. *)
Lemma stored_document_stringify (space : nat) (s : text) (kc : obj) :
  wf kc -> Forall boolean_entry kc -> has_key proto_key kc = false ->
  stored_document (JSON_stringify (document s kc) space) = Some (document s kc).
Proof.
  intros Hwf Hb Hp. rewrite stored_document_stringify_parsed by assumption.
  now rewrite parsed_same.
Qed.

(** Every stored document has the schema's shape. *)
Lemma stored_document_MemoryData (data : text) (d : json) :
  stored_document data = Some d -> MemoryData d.
Proof.
  unfold stored_document. destruct (JSON_parse data) as [j|]; [|discriminate].
  destruct (zparse MemorySchema [] (Some j)) eqn:E; [|discriminate].
  intros [= <-]. eapply MemorySchema_MemoryData; eauto.
Qed.

Lemma readMemory_stored (w : world) (data : text) (d : json) :
  memory_file w = Some data -> stored_document data = Some d ->
  readMemory w = (Return d, logged [ReadFile memoryFilePath] w).
Proof.
  intros Hf Hd. rewrite readMemory_run, Hf. unfold stored_document in Hd.
  destruct (JSON_parse data) as [j|]; [|discriminate].
  destruct (zparse MemorySchema [] (Some j)); congruence.
Qed.

Lemma readMemory_returns (w w' : world) (d : json) :
  readMemory w = (Return d, w') ->
  exists data, memory_file w = Some data /\ stored_document data = Some d
               /\ w' = logged [ReadFile memoryFilePath] w.
Proof.
  rewrite readMemory_run. unfold stored_document.
  destruct (memory_file w) as [data|]; [|discriminate].
  destruct (JSON_parse data) as [j|] eqn:Ej; [|discriminate].
  destruct (zparse MemorySchema [] (Some j)) eqn:Ez; [|discriminate].
  intros [= <- <-]. exists data. now rewrite Ej, Ez.
Qed.

(** ** The registry after start-up *)

(** Start-up never fails: the names are distinct. *)
Lemma start_entries (cfg : config) : start cfg = Return (entries cfg).
Proof. destruct cfg as [[[|c k]|] [p|]]; reflexivity. Qed.

Lemma invoke_read_from_memory (cfg : config) (rawInput : json) :
  invoke (entries cfg) (js "read_from_memory") rawInput
  = dispatch (ZObject []) read_from_memory rawInput.
Proof. destruct cfg as [[[|c k]|] [p|]]; reflexivity. Qed.

Lemma invoke_write_to_memory (cfg : config) (rawInput : json) :
  invoke (entries cfg) (js "write_to_memory") rawInput
  = dispatch (ZObject writeMemoryInputShape) write_to_memory rawInput.
Proof. destruct cfg as [[[|c k]|] [p|]]; reflexivity. Qed.

Lemma invoke_css_knowledge_memory (cfg : config) (rawInput : json) :
  invoke (entries cfg) (js "css_knowledge_memory") rawInput
  = dispatch ZString (fun input => css_knowledge_memory (as_text (Some input))) rawInput.
Proof. destruct cfg as [[[|c k]|] [p|]]; reflexivity. Qed.

(** ** The write-state handler *)

(** The document [write_to_memory] builds from the one it read. *)
Lemma updated_document (s concept : text) (known : bool) (kc : obj) :
  wf kc ->
  JObj (obj_set (js "known_concepts")
          (JObj (obj_set concept (JBool known)
                   (spread (own_props (field (document s kc) (js "known_concepts"))))))
          (spread (own_props (Some (document s kc)))))
  = document s (obj_set concept (JBool known) kc).
Proof.
  intros Hwf.
  change (field (document s kc) (js "known_concepts")) with (Some (JObj kc)).
  cbn [own_props]. rewrite (spread_wf Hwf). reflexivity.
Qed.

(** On a store that holds a document the write succeeds and replaces the
    file by the updated document. *)
Lemma write_to_memory_stored (w : world) (data s : text) (kc : obj) (args : json) :
  memory_file w = Some data -> stored_document data = Some (document s kc) ->
  wf kc -> Forall boolean_entry kc ->
  let concept := as_text (field args (js "concept")) in
  let known := as_bool (field args (js "known")) in
  write_to_memory args w
  = (Return (confirmation concept),
     written (JSON_stringify (document s (obj_set concept (JBool known) kc)) 2)
       (logged [ReadFile memoryFilePath] w)).
Proof.
  intros Hf Hd Hwf Hb concept known. unfold write_to_memory, try_catch, bind.
  fold concept known.
  rewrite (readMemory_stored w Hf Hd), (updated_document s concept known Hwf).
  rewrite writeMemory_run, MemorySchema_parsed;
    [reflexivity | now apply wf_obj_set | now apply boolean_obj_set].
Qed.


(** The arguments the shape of [write_to_memory] accepts. *)
Lemma write_shape_inv (rawInput args : json) :
  zparse (ZObject writeMemoryInputShape) [] (Some rawInput) = ZOk args ->
  exists concept known,
    field rawInput (js "concept") = Some (JStr concept)
    /\ field rawInput (js "known") = Some (JBool known)
    /\ args = JObj [(js "concept", JStr concept); (js "known", JBool known)].
Proof.
  destruct rawInput as [| | | | |o]; try discriminate.
  cbn [zparse writeMemoryInputShape field].
  destruct (lookup (js "concept") o) as [[|cb|cn|cs|ca|co]|];
    destruct (lookup (js "known") o) as [[|kb|kn|ks|ka|ko]|];
    cbn [collect app]; try discriminate.
  intros [= <-]. now exists cs, kb.
Qed.

Lemma write_shape_accepts (rawInput : json) (concept : text) (known : bool) :
  field rawInput (js "concept") = Some (JStr concept) ->
  field rawInput (js "known") = Some (JBool known) ->
  zparse (ZObject writeMemoryInputShape) [] (Some rawInput)
  = ZOk (JObj [(js "concept", JStr concept); (js "known", JBool known)]).
Proof.
  destruct rawInput as [| | | | |o]; try discriminate.
  cbn [zparse writeMemoryInputShape field]. intros -> ->. reflexivity.
Qed.

(** ** write-state: input validation (C1) *)

(** C1, as stated, fails: with the empty string as [concept] the
    invocation of [write_to_memory] succeeds and the file is replaced by a
    document that has the empty concept. *)
Lemma empty_concept_is_written :
  let srv := entries bare_config in
  let run := invoke srv (js "write_to_memory") (write_args (JStr []) (JBool true)) seed_world in
  start bare_config = Return srv
  /\ fst run = Return (confirmation [])
  /\ memory_file (snd run)
     = Some (JSON_stringify (document (js "u1") [([], JBool true)]) 2)
  /\ memory_file (snd run) <> memory_file seed_world.
Proof.
  cbv zeta. split; [apply start_entries|].
  rewrite invoke_write_to_memory.
  vm_compute. repeat split. discriminate.
Qed.

(** C1, amended: an invocation of [write_to_memory] fails with InvalidInput
    when the raw input does not match the shape, a string [concept] and a
    boolean [known]; the handler does not run and the world, the store
    with it, is left as it was.  The empty string is a string: it passes
    the shape like any other concept name. *)
Theorem write_to_memory_rejects_invalid_input
    (cfg : config) (srv : server) (rawInput : json) (issues : list issue) (w : world) :
  start cfg = Return srv ->
  zparse (ZObject writeMemoryInputShape) [] (Some rawInput) = ZErr issues ->
  invoke srv (js "write_to_memory") rawInput w = (Throw (InvalidInputError issues), w)
  /\ failure_of (InvalidInputError issues) = Some InvalidInput
  /\ forall known,
       zparse (ZObject writeMemoryInputShape) [] (Some (write_args (JStr []) (JBool known)))
       = ZOk (write_args (JStr []) (JBool known)).
Proof.
  intros Hs Hz. rewrite start_entries in Hs. injection Hs as <-.
  rewrite invoke_write_to_memory. unfold dispatch. rewrite Hz.
  repeat split.
Qed.

Lemma write_to_memory_rejects_invalid_input_witness :
  invoke (entries bare_config) (js "write_to_memory")
    (write_args (JNum (js "7")) (JBool true)) seed_world
  = (Throw (InvalidInputError [{| expected := TString; path := [js "concept"] |}]),
     seed_world)
  /\ failure_of (InvalidInputError [{| expected := TString; path := [js "concept"] |}])
     = Some InvalidInput
  /\ forall known,
       zparse (ZObject writeMemoryInputShape) [] (Some (write_args (JStr []) (JBool known)))
       = ZOk (write_args (JStr []) (JBool known)).
Proof.
  apply (@write_to_memory_rejects_invalid_input bare_config).
  - reflexivity.
  - reflexivity.
Defined.

(** ** write-state then read-state (C3, C10) *)

Lemma known_concept_document (s : text) (kc : obj) (k : text) :
  known_concept (document s kc) k = lookup k kc.
Proof. reflexivity. Qed.

(** The two capabilities run one after the other on a store that holds a
    document: the file gets the updated document, and the read after it
    returns what the schema keeps of that. *)
Lemma write_then_read_run (cfg : config) (w : world) (data s : text) (kc : obj)
    (rawInput : json) (concept : text) (known : bool) (o : obj) :
  memory_file w = Some data -> stored_document data = Some (document s kc) ->
  wf kc -> Forall boolean_entry kc ->
  field rawInput (js "concept") = Some (JStr concept) ->
  field rawInput (js "known") = Some (JBool known) ->
  let kc' := obj_set concept (JBool known) kc in
  let w1 := written (JSON_stringify (document s kc') 2) (logged [ReadFile memoryFilePath] w) in
  invoke (entries cfg) (js "write_to_memory") rawInput w = (Return (confirmation concept), w1)
  /\ invoke (entries cfg) (js "read_from_memory") (JObj o) w1
     = (Return (text_content (JStr (JSON_stringify (document s (parsed kc')) 2))),
        logged [ReadFile memoryFilePath] w1).
Proof.
  intros Hf Hd Hwf Hb Hc Hk kc' w1. split.
  - rewrite invoke_write_to_memory. unfold dispatch.
    rewrite (write_shape_accepts rawInput Hc Hk).
    now rewrite (write_to_memory_stored w _ Hf Hd Hwf Hb).
  - rewrite invoke_read_from_memory. unfold dispatch. cbn [zparse collect].
    unfold read_from_memory, try_catch, bind.
    rewrite (@readMemory_stored w1 (JSON_stringify (document s kc') 2)
               (document s (parsed kc'))); [reflexivity | reflexivity |].
    apply stored_document_stringify_parsed;
      [now apply wf_obj_set | now apply boolean_obj_set].
Qed.

(** C3, at the concept [__proto__]: on the seed document,
    [write_to_memory] with that concept succeeds, confirms the update and
    writes the entry to the file; [read_from_memory] right after it returns
    a document in which the concept has no entry.  The claim promises the
    entry for every concept. *)
Theorem proto_concept_is_not_read_back :
  let srv := entries bare_config in
  let run :=
    invoke srv (js "write_to_memory") (write_args (JStr proto_key) (JBool true)) seed_world in
  let read := invoke srv (js "read_from_memory") (JObj []) (snd run) in
  start bare_config = Return srv
  /\ fst run = Return (confirmation proto_key)
  /\ memory_file (snd run)
     = Some (JSON_stringify (document (js "u1") [(proto_key, JBool true)]) 2)
  /\ fst read = Return (text_content (JStr (JSON_stringify (document (js "u1") []) 2)))
  /\ known_concept (document (js "u1") []) proto_key = None
  /\ known_concept (document (js "u1") []) proto_key <> Some (JBool true).
Proof.
  cbv zeta. split; [apply start_entries|].
  destruct (@write_then_read_run bare_config seed_world
              (jq "{'user_id':'u1','known_concepts':{}}") (js "u1") []
              (write_args (JStr proto_key) (JBool true)) proto_key true [])
    as [H1 H2];
    [reflexivity | vm_compute; reflexivity | apply wf_nil | constructor
    | reflexivity | reflexivity |].
  cbv zeta in H1, H2. rewrite H1. cbn [fst snd]. rewrite H2.
  repeat split. discriminate.
Qed.



(** ** read-state and the resource (C2) *)

Lemma read_from_memory_run (input : json) (w : world) :
  read_from_memory input w
  = match readMemory w with
    | (Return d, w1) => (Return (text_content (JStr (JSON_stringify d 2))), w1)
    | (Throw e, w1) => (Throw e, logged [read_tool_label] w1)
    end.
Proof.
  unfold read_from_memory, try_catch, bind.
  destruct (readMemory w) as [[d|e] w1]; reflexivity.
Qed.

Lemma css_knowledge_memory_run (uri : text) (w : world) :
  css_knowledge_memory uri w
  = match readMemory (logged [resource_request uri] w) with
    | (Return d, w1) => (Return (resource_contents uri (JStr (JSON_stringify d 0))), w1)
    | (Throw e, w1) => (Throw e, logged [resource_label uri] w1)
    end.
Proof.
  unfold css_knowledge_memory, try_catch, bind, console_log, emit.
  change {| memory_file := memory_file w; provider := provider w;
            trace := Console Log (js "Resource request for: " ++ uri) :: trace w |}
    with (logged [resource_request uri] w).
  destruct (readMemory (logged [resource_request uri] w)) as [[d|e] w1]; reflexivity.
Qed.

(** What [readMemory] returns depends on the file alone. *)
Lemma readMemory_logged (es : list event) (w : world) :
  fst (readMemory (logged es w)) = fst (readMemory w).
Proof.
  rewrite !readMemory_run. cbn [logged memory_file].
  destruct (memory_file w) as [data|]; [|reflexivity].
  destruct (JSON_parse data) as [j|]; [|reflexivity].
  destruct (zparse MemorySchema [] (Some j)); reflexivity.
Qed.

(** C2, as stated, fails: on the seed document the tool returns the
    document indented by two spaces and the resource returns it without
    white space. *)
Lemma read_tool_and_resource_differ :
  let srv := entries bare_config in
  let uri := js "memory://css_knowledge_memory/" in
  let tool_text := jq "{
  'user_id': 'u1',
  'known_concepts': {}
}" in
  let resource_text := jq "{'user_id':'u1','known_concepts':{}}" in
  start bare_config = Return srv
  /\ fst (invoke srv (js "read_from_memory") (JObj []) seed_world)
     = Return (text_content (JStr tool_text))
  /\ fst (invoke srv (js "css_knowledge_memory") (JStr uri) seed_world)
     = Return (resource_contents uri (JStr resource_text))
  /\ tool_text <> resource_text.
Proof.
  cbv zeta. split; [apply start_entries|].
  rewrite invoke_read_from_memory, invoke_css_knowledge_memory.
  vm_compute. repeat split. discriminate.
Qed.

(** C2, amended: for every state of the store the tool and the resource
    fail together, with the same error, or return the same document: the
    tool as [JSON.stringify(d, null, 2)], the resource as
    [JSON.stringify(d)].  The two texts differ in white space only:
    [JSON.parse] reads the same document out of both. *)
Theorem read_tool_and_resource_agree
    (cfg : config) (srv : server) (w : world) (uri : text) (o : obj) :
  start cfg = Return srv ->
  (exists d w1 w2,
      invoke srv (js "read_from_memory") (JObj o) w
      = (Return (text_content (JStr (JSON_stringify d 2))), w1)
      /\ invoke srv (js "css_knowledge_memory") (JStr uri) w
         = (Return (resource_contents uri (JStr (JSON_stringify d 0))), w2)
      /\ JSON_parse (JSON_stringify d 2) = Some d
      /\ JSON_parse (JSON_stringify d 0) = Some d)
  \/ (exists e w1 w2,
         invoke srv (js "read_from_memory") (JObj o) w = (Throw e, w1)
         /\ invoke srv (js "css_knowledge_memory") (JStr uri) w = (Throw e, w2)).
Proof.
  intros Hs. rewrite start_entries in Hs. injection Hs as <-.
  rewrite invoke_read_from_memory, invoke_css_knowledge_memory.
  unfold dispatch. cbn [zparse collect as_text].
  rewrite read_from_memory_run, css_knowledge_memory_run.
  pose proof (readMemory_logged [resource_request uri] w) as Hsame.
  destruct (readMemory w) as [[d|e] w1] eqn:E1;
    destruct (readMemory (logged [resource_request uri] w)) as [[d'|e'] w2] eqn:E2;
    cbn [fst] in Hsame; try discriminate.
  - injection Hsame as ->. left. exists d, w1, w2.
    apply readMemory_returns in E1 as (data & _ & Hd & _).
    destruct (stored_document_MemoryData _ Hd) as (s & kc & -> & Hwf & Hb & Hp).
    repeat split; unfold JSON_stringify;
      apply parse_serialize_document; auto using blank_repeat.
  - injection Hsame as ->. right. now exists e, (logged [read_tool_label] w1),
      (logged [resource_label uri] w2).
Qed.

Lemma read_tool_and_resource_agree_witness :
  (exists d w1 w2,
      invoke (entries bare_config) (js "read_from_memory") (JObj []) seed_world
      = (Return (text_content (JStr (JSON_stringify d 2))), w1)
      /\ invoke (entries bare_config) (js "css_knowledge_memory") (JStr (js "memory://css_knowledge_memory/")) seed_world
         = (Return (resource_contents (js "memory://css_knowledge_memory/")
                      (JStr (JSON_stringify d 0))), w2)
      /\ JSON_parse (JSON_stringify d 2) = Some d
      /\ JSON_parse (JSON_stringify d 0) = Some d)
  \/ (exists e w1 w2,
         invoke (entries bare_config) (js "read_from_memory") (JObj []) seed_world = (Throw e, w1)
         /\ invoke (entries bare_config) (js "css_knowledge_memory") (JStr (js "memory://css_knowledge_memory/")) seed_world
            = (Throw e, w2)).
Proof.
  apply (@read_tool_and_resource_agree bare_config). reflexivity.
Defined.

(** ** The store contract (C5, C6, C8) *)

(** C5: when the content of the backing file is not a document the schema
    accepts (not JSON at all, or JSON of another shape, a non-boolean under
    [known_concepts] for one), [readMemory] fails with CorruptState and
    writes nothing: the file is as it was and no write was issued. *)
Theorem readMemory_corrupt (w : world) (data : text) :
  memory_file w = Some data -> stored_document data = None ->
  exists cause w',
    readMemory w = (Throw (ReadMemoryError cause), w')
    /\ failure_of (ReadMemoryError cause) = Some CorruptState
    /\ memory_file w' = memory_file w
    /\ writes (trace w') = writes (trace w).
Proof.
  intros Hf Hd. rewrite readMemory_run, Hf. unfold stored_document in Hd.
  destruct (JSON_parse data) as [j|].
  - destruct (zparse MemorySchema [] (Some j)) as [d|issues]; [discriminate|].
    exists (ZodError issues). eexists. repeat split. exact Hf.
  - exists SyntaxError. eexists. repeat split. exact Hf.
Qed.

Lemma readMemory_corrupt_witness :
  exists cause w',
    readMemory corrupt_world = (Throw (ReadMemoryError cause), w')
    /\ failure_of (ReadMemoryError cause) = Some CorruptState
    /\ memory_file w' = memory_file corrupt_world
    /\ writes (trace w') = writes (trace corrupt_world).
Proof.
  apply (@readMemory_corrupt corrupt_world
           (jq "{'user_id':'u1','known_concepts':{'Flexbox':'yes'}}")).
  - reflexivity.
  - vm_compute. reflexivity.
Defined.


(** C8, as stated, fails: a record with the empty string as [user_id]
    passes the schema, and [readMemory] hands it to its caller. *)
Lemma empty_user_id_is_accepted :
  let data := jq "{'user_id':'','known_concepts':{}}" in
  let w := {| memory_file := Some data; provider := no_provider; trace := [] |} in
  stored_document data = Some (document [] [])
  /\ fst (readMemory w) = Return (document [] [])
  /\ field (document [] []) (js "user_id") = Some (JStr [])
  /\ fst (writeMemory (document [] []) w) = Return tt.
Proof. vm_compute. repeat split. Qed.

(** C8, amended: every document the schema accepts, so every document
    [readMemory] returns and every document [writeMemory] stores, has a
    string as [user_id], the empty string included; a record whose
    [user_id] is missing or is not a string fails validation, is never
    returned by [readMemory] and never stored by [writeMemory]. *)
Theorem user_id_is_a_string :
  (forall j d,
      zparse MemorySchema [] (Some j) = ZOk d ->
      exists s, field j (js "user_id") = Some (JStr s)
                /\ field d (js "user_id") = Some (JStr s))
  /\ (forall w w' d,
         readMemory w = (Return d, w') ->
         exists s, field d (js "user_id") = Some (JStr s))
  /\ (forall newData w w',
         writeMemory newData w = (Return tt, w') ->
         exists s, field newData (js "user_id") = Some (JStr s))
  /\ (forall j,
         is_string (field j (js "user_id")) = false ->
         (exists issues, zparse MemorySchema [] (Some j) = ZErr issues)
         /\ (forall w data,
               memory_file w = Some data -> JSON_parse data = Some j ->
               exists cause w',
                 readMemory w = (Throw (ReadMemoryError cause), w')
                 /\ failure_of (ReadMemoryError cause) = Some CorruptState)
         /\ (forall w,
               exists cause w',
                 writeMemory j w = (Throw (WriteMemoryError cause), w')
                 /\ failure_of (WriteMemoryError cause) = Some InvalidDocument
                 /\ memory_file w' = memory_file w)).
Proof.
  assert (Hpos : forall j d, zparse MemorySchema [] (Some j) = ZOk d ->
                             exists s, field j (js "user_id") = Some (JStr s)
                                       /\ field d (js "user_id") = Some (JStr s)).
  { intros j d E. apply MemorySchema_inv in E as (o & s & kc & -> & Hs & _ & _ & ->).
    exists s. split; [exact Hs | reflexivity]. }
  split; [exact Hpos|]. split; [|split].
  - intros w w' d H. apply readMemory_returns in H as (data & _ & Hd & _).
    destruct (stored_document_MemoryData _ Hd) as (s & kc & -> & _).
    now exists s.
  - intros newData w w'. rewrite writeMemory_run.
    destruct (zparse MemorySchema [] (Some newData)) as [d|issues] eqn:E; [|discriminate].
    intros _. destruct (Hpos _ _ E) as (s & Hs & _). now exists s.
  - intros j Hu.
    assert (Hz : exists issues, zparse MemorySchema [] (Some j) = ZErr issues).
    { destruct (zparse MemorySchema [] (Some j)) as [d|issues] eqn:E; [|now exists issues].
      destruct (Hpos _ _ E) as (s & Hs & _). rewrite Hs in Hu. discriminate. }
    destruct Hz as [issues Hz]. split; [now exists issues|]. split.
    + intros w data Hf Hj. rewrite readMemory_run, Hf, Hj, Hz.
      exists (ZodError issues). eexists. repeat split.
    + intros w. rewrite writeMemory_run, Hz.
      exists (ZodError issues). eexists. repeat split.
Qed.

Lemma user_id_is_a_string_witness :
  let j := JObj [(js "user_id", JNum (js "42")); (js "known_concepts", JObj [])] in
  (exists issues, zparse MemorySchema [] (Some j) = ZErr issues)
  /\ (forall w data,
        memory_file w = Some data -> JSON_parse data = Some j ->
        exists cause w', readMemory w = (Throw (ReadMemoryError cause), w')
                         /\ failure_of (ReadMemoryError cause) = Some CorruptState)
  /\ (forall w,
        exists cause w', writeMemory j w = (Throw (WriteMemoryError cause), w')
                         /\ failure_of (WriteMemoryError cause) = Some InvalidDocument
                         /\ memory_file w' = memory_file w).
Proof.
  apply (proj2 (proj2 (proj2 user_id_is_a_string))
           (JObj [(js "user_id", JNum (js "42")); (js "known_concepts", JObj [])])).
  reflexivity.
Defined.

(** ** Conditional registration (C4) *)

Lemma registered_app (nm : text) (l1 l2 : server) :
  registered nm (l1 ++ l2)
  = match registered nm l1 with Some c => Some c | None => registered nm l2 end.
Proof.
  unfold registered. induction l1 as [|c l1 IH]; simpl; [reflexivity|].
  destruct (text_eqb (name c) nm); auto.
Qed.

Lemma entries_common (key prompt : option text) :
  entries {| OPENROUTER_API_KEY := key; css_updater_prompt := prompt |}
  = common_entries prompt ++ entry (registerGetLatestUpdatesTool key).
Proof.
  unfold entries, common_entries. cbn [OPENROUTER_API_KEY css_updater_prompt].
  now rewrite <- !app_assoc.
Qed.

(** C4: with [OPENROUTER_API_KEY] absent (or empty) start-up succeeds and
    [get_latest_updates] is not registered: it is not in the list, and
    invoking it fails with UnknownCapability, the world untouched.  The
    resource and the two memory tools are registered in that order (after
    the prompt, when its file could be read), and every capability other
    than [get_latest_updates] answers an invocation exactly as it does in
    a process that has the credential. *)
Theorem updates_tool_needs_the_key (prompt other_key : option text) :
  exists srv srv',
    start {| OPENROUTER_API_KEY := None; css_updater_prompt := prompt |} = Return srv
    /\ start {| OPENROUTER_API_KEY := Some []; css_updater_prompt := prompt |} = Return srv
    /\ start {| OPENROUTER_API_KEY := other_key; css_updater_prompt := prompt |} = Return srv'
    /\ list_capabilities srv
       = match prompt with
         | Some _ => [(js "css-tutor-guidance", Guidance)]
         | None => []
         end
         ++ [(js "css_knowledge_memory", Resource);
             (js "read_from_memory", Action);
             (js "write_to_memory", Action)]
    /\ ~ In updates_name (List.map fst (list_capabilities srv))
    /\ (forall input w,
          invoke srv updates_name input w = (Throw (UnknownCapabilityError updates_name), w))
    /\ failure_of (UnknownCapabilityError updates_name) = Some UnknownCapability
    /\ (forall nm input,
          nm <> updates_name -> invoke srv nm input = invoke srv' nm input).
Proof.
  exists (entries {| OPENROUTER_API_KEY := None; css_updater_prompt := prompt |}),
         (entries {| OPENROUTER_API_KEY := other_key; css_updater_prompt := prompt |}).
  split; [apply start_entries|].
  split; [destruct prompt; reflexivity|].
  split; [apply start_entries|].
  split; [destruct prompt; reflexivity|].
  split.
  { destruct prompt; vm_compute; intuition discriminate. }
  split; [intros input w; destruct prompt; reflexivity|].
  split; [reflexivity|].
  intros nm input Hne. unfold invoke. rewrite !entries_common, !registered_app.
  destruct (registered nm (common_entries prompt)); [reflexivity|].
  destruct other_key as [[|c k]|]; try reflexivity.
  unfold entry, registerGetLatestUpdatesTool, server_tool, register, registered.
  cbn [List.find app name]. fold updates_name.
  now rewrite (text_eqb_neq (not_eq_sym Hne)).
Qed.

(** ** The answer of the provider (C7, C9) *)

Lemma invoke_get_latest_updates (c : char) (k : text) (prompt : option text) (rawInput : json) :
  invoke (entries {| OPENROUTER_API_KEY := Some (c :: k); css_updater_prompt := prompt |})
    updates_name rawInput
  = dispatch (ZObject []) (get_latest_updates (c :: k)) rawInput.
Proof. destruct prompt; reflexivity. Qed.

(** The handler on a success response whose body is JSON other than null. *)
Lemma get_latest_updates_answer (key : text) (input : json) (w : world)
    (r : response) (data : json) :
  provider w (updates_request key) = Some r -> ok r = true ->
  JSON_parse (body r) = Some data -> data <> JNull ->
  get_latest_updates key input w
  = match truthy (content_path data) with
    | None =>
        (Throw NoAssistantMessage,
         logged [updates_tool_label; invalid_response_label; Fetch (updates_request key)] w)
    | Some message =>
        (Return (text_content message), logged [Fetch (updates_request key)] w)
    end.
Proof.
  intros Hp Hok Hj Hnull.
  unfold get_latest_updates, try_catch, bind, fetch, bind, emit.
  cbn [provider memory_file trace]. rewrite Hp, Hok. cbn [negb ret].
  unfold JSON_parse_or_throw. rewrite Hj.
  assert (Ha : forall w0, assistant_message data w0 = (Return (content_path data), w0)).
  { intros w0. destruct data; try reflexivity. congruence. }
  unfold ret at 1. rewrite Ha.
  destruct (truthy (content_path data)); reflexivity.
Qed.

Lemma content_path_null : content_path JNull = None.
Proof. reflexivity. Qed.

(** C9: when the provider answers with success and
    [choices[0].message.content] is the empty string, the invocation of
    [get_latest_updates] fails exactly as it does for a missing result
    field (same error, same log), instead of returning the empty text. *)
Theorem empty_content_is_missing
    (cfg : config) (srv : server) (c : char) (k : text) (o : obj)
    (w : world) (r : response) (data : json) :
  start cfg = Return srv -> OPENROUTER_API_KEY cfg = Some (c :: k) ->
  provider w (updates_request (c :: k)) = Some r -> ok r = true ->
  JSON_parse (body r) = Some data ->
  content_path data = Some (JStr []) ->
  invoke srv updates_name (JObj o) w
  = (Throw NoAssistantMessage,
     logged [updates_tool_label; invalid_response_label;
             Fetch (updates_request (c :: k))] w)
  /\ failure_of NoAssistantMessage = Some UpstreamProtocolError.
Proof.
  intros Hs Hkey Hp Hok Hj Hc. rewrite start_entries in Hs. injection Hs as <-.
  destruct cfg as [key prompt]. cbn [OPENROUTER_API_KEY] in Hkey. subst key.
  rewrite invoke_get_latest_updates. unfold dispatch. cbn [zparse collect].
  assert (Hnull : data <> JNull).
  { intros ->. rewrite content_path_null in Hc. discriminate. }
  rewrite (@get_latest_updates_answer _ _ _ _ _ Hp Hok Hj Hnull), Hc.
  split; reflexivity.
Qed.

Lemma empty_content_is_missing_witness :
  let w := answering (jq "{'choices':[{'message':{'role':'assistant','content':''}}]}") in
  invoke (entries keyed_config) updates_name (JObj []) w
  = (Throw NoAssistantMessage,
     logged [updates_tool_label; invalid_response_label;
             Fetch (updates_request (js "sk-or-test"))] w)
  /\ failure_of NoAssistantMessage = Some UpstreamProtocolError.
Proof.
  apply (@empty_content_is_missing keyed_config (entries keyed_config) 115 (js "k-or-test") []
           (answering (jq "{'choices':[{'message':{'role':'assistant','content':''}}]}"))
           {| status := 200; statusText := js "OK";
              body := jq "{'choices':[{'message':{'role':'assistant','content':''}}]}" |}
           (JObj [(js "choices",
                   JArr [JObj [(js "message",
                                JObj [(js "role", JStr (js "assistant"));
                                      (js "content", JStr [])])]])])).
  - reflexivity.
  - reflexivity.
  - reflexivity.
  - reflexivity.
  - vm_compute. reflexivity.
  - vm_compute. reflexivity.
Defined.

(** C7, as stated, fails: a success response in which the result field
    is present, as the empty string, is not answered with the field's
    text; the invocation fails. *)
Lemma present_content_not_returned :
  let data := JObj [(js "choices", JArr [JObj [(js "message", JObj [(js "content", JStr [])])]])] in
  let w := answering (jq "{'choices':[{'message':{'content':''}}]}") in
  start keyed_config = Return (entries keyed_config)
  /\ JSON_parse (jq "{'choices':[{'message':{'content':''}}]}") = Some data
  /\ content_path data = Some (JStr [])
  /\ fst (invoke (entries keyed_config) updates_name (JObj []) w) = Throw NoAssistantMessage
  /\ fst (invoke (entries keyed_config) updates_name (JObj []) w)
     <> Return (text_content (JStr [])).
Proof.
  cbv zeta. split; [apply start_entries|].
  split; [vm_compute; reflexivity|].
  split; [vm_compute; reflexivity|].
  assert (H : fst (invoke (entries keyed_config) updates_name (JObj [])
                     (answering (jq "{'choices':[{'message':{'content':''}}]}")))
              = Throw NoAssistantMessage) by (vm_compute; reflexivity).
  split; [exact H|]. rewrite H. discriminate.
Qed.

(** C7, amended: on a success response whose body is JSON other than
    null, [get_latest_updates] fails with UpstreamProtocolError, without
    a crash, when [choices[0].message.content] is missing, and returns the
    field verbatim when it is a non-empty string. *)
Theorem updates_answer
    (cfg : config) (srv : server) (c : char) (k : text) (o : obj)
    (w : world) (r : response) (data : json) :
  start cfg = Return srv -> OPENROUTER_API_KEY cfg = Some (c :: k) ->
  provider w (updates_request (c :: k)) = Some r -> ok r = true ->
  JSON_parse (body r) = Some data -> data <> JNull ->
  match content_path data with
  | None =>
      invoke srv updates_name (JObj o) w
      = (Throw NoAssistantMessage,
         logged [updates_tool_label; invalid_response_label;
                 Fetch (updates_request (c :: k))] w)
      /\ failure_of NoAssistantMessage = Some UpstreamProtocolError
  | Some (JStr (ch :: s)) =>
      invoke srv updates_name (JObj o) w
      = (Return (text_content (JStr (ch :: s))),
         logged [Fetch (updates_request (c :: k))] w)
  | Some _ => True
  end.
Proof.
  intros Hs Hkey Hp Hok Hj Hnull. rewrite start_entries in Hs. injection Hs as <-.
  destruct cfg as [key prompt]. cbn [OPENROUTER_API_KEY] in Hkey. subst key.
  rewrite invoke_get_latest_updates. unfold dispatch. cbn [zparse collect].
  rewrite (@get_latest_updates_answer _ _ _ _ _ Hp Hok Hj Hnull).
  destruct (content_path data) as [[| | |[|ch s]| |]|]; try exact I.
  - reflexivity.
  - split; reflexivity.
Qed.

Lemma updates_answer_witness :
  let w := answering (jq "{'choices':[{'message':{'content':'Anchor positioning shipped.'}}]}") in
  invoke (entries keyed_config) updates_name (JObj []) w
  = (Return (text_content (JStr (js "Anchor positioning shipped."))),
     logged [Fetch (updates_request (js "sk-or-test"))] w).
Proof.
  exact (@updates_answer keyed_config (entries keyed_config) 115 (js "k-or-test") []
           (answering (jq "{'choices':[{'message':{'content':'Anchor positioning shipped.'}}]}"))
           {| status := 200; statusText := js "OK";
              body := jq "{'choices':[{'message':{'content':'Anchor positioning shipped.'}}]}" |}
           (JObj [(js "choices",
                   JArr [JObj [(js "message",
                                JObj [(js "content",
                                       JStr (js "Anchor positioning shipped."))])]])])
           eq_refl eq_refl eq_refl eq_refl eq_refl
           ltac:(discriminate)).
Defined.

(** * Further properties of the handlers *)

(** ** Frames *)

(** [readMemory] reads: it leaves the file and the network as they are
    and issues no write. *)
Lemma readMemory_frame (w : world) :
  memory_file (snd (readMemory w)) = memory_file w
  /\ provider (snd (readMemory w)) = provider w
  /\ writes (trace (snd (readMemory w))) = writes (trace w)
  /\ fetches (trace (snd (readMemory w))) = fetches (trace w).
Proof.
  rewrite readMemory_run.
  destruct (memory_file w) as [data|] eqn:Hf; [|repeat split; exact Hf].
  destruct (JSON_parse data) as [j|]; [|repeat split; exact Hf].
  destruct (zparse MemorySchema [] (Some j)); repeat split; exact Hf.
Qed.

(** When the store holds no document, [readMemory] throws, and what it
    throws tells a missing file from a corrupt one. *)
Lemma readMemory_no_document (w : world) :
  store_document w = None ->
  exists cause w',
    readMemory w = (Throw (ReadMemoryError cause), w')
    /\ memory_file w' = memory_file w
    /\ writes (trace w') = writes (trace w)
    /\ failure_of (ReadMemoryError cause)
       = Some (match memory_file w with
               | None => StoreUnavailable
               | Some _ => CorruptState
               end).
Proof.
  unfold store_document, stored_document. rewrite readMemory_run.
  destruct (memory_file w) as [data|] eqn:Hf.
  - destruct (JSON_parse data) as [j|].
    + destruct (zparse MemorySchema [] (Some j)) as [d|issues]; [discriminate|].
      intros _. exists (ZodError issues). eexists. repeat split. exact Hf.
    + intros _. exists SyntaxError. eexists. repeat split. exact Hf.
  - intros _. exists ENOENT. eexists. repeat split. exact Hf.
Qed.

(** ** A store without a document *)

Lemma write_to_memory_no_document (args : json) (w : world) :
  store_document w = None ->
  exists cause w',
    write_to_memory args w = (Throw (ReadMemoryError cause), w')
    /\ memory_file w' = memory_file w
    /\ writes (trace w') = writes (trace w)
    /\ failure_of (ReadMemoryError cause)
       = Some (match memory_file w with
               | None => StoreUnavailable
               | Some _ => CorruptState
               end).
Proof.
  intros H. destruct (readMemory_no_document w H) as (cause & w1 & Hr & Hf & Hw & Hk).
  exists cause, (logged [write_tool_label] w1).
  unfold write_to_memory, try_catch, bind. rewrite Hr.
  repeat split; assumption.
Qed.

(** X1: when the backing file is missing or does not hold a valid
    document, an invocation of [write_to_memory] fails, whatever its
    input: with InvalidInput when the input does not fit the shape, and
    otherwise with the error of [readMemory], StoreUnavailable for a
    missing file and CorruptState for a corrupt one.  In every case the
    file is left as it was (a missing file is not created, a corrupt one
    is not repaired) and no write is issued. *)
Theorem write_to_memory_needs_a_document
    (cfg : config) (srv : server) (rawInput : json) (w : world) :
  start cfg = Return srv ->
  store_document w = None ->
  exists e w',
    invoke srv (js "write_to_memory") rawInput w = (Throw e, w')
    /\ memory_file w' = memory_file w
    /\ writes (trace w') = writes (trace w)
    /\ match zparse (ZObject writeMemoryInputShape) [] (Some rawInput) with
       | ZErr issues => e = InvalidInputError issues
       | ZOk _ =>
           exists cause,
             e = ReadMemoryError cause
             /\ failure_of e = Some (match memory_file w with
                                     | None => StoreUnavailable
                                     | Some _ => CorruptState
                                     end)
       end.
Proof.
  intros Hs Hd. rewrite start_entries in Hs. injection Hs as <-.
  rewrite invoke_write_to_memory. unfold dispatch.
  destruct (zparse (ZObject writeMemoryInputShape) [] (Some rawInput)) as [args|issues].
  - destruct (write_to_memory_no_document args w Hd) as (cause & w' & Hr & Hf & Hw & Hk).
    exists (ReadMemoryError cause), w'. repeat split; try assumption.
    exists cause. split; [reflexivity | exact Hk].
  - exists (InvalidInputError issues), w. repeat split.
Qed.

Lemma write_to_memory_needs_a_document_witness :
  exists e w',
    invoke (entries bare_config) (js "write_to_memory")
      (write_args (JStr (js "Grid")) (JBool true)) missing_world = (Throw e, w')
    /\ memory_file w' = None
    /\ writes (trace w') = []
    /\ exists cause,
         e = ReadMemoryError cause /\ failure_of e = Some StoreUnavailable.
Proof.
  apply (@write_to_memory_needs_a_document bare_config (entries bare_config)
           (write_args (JStr (js "Grid")) (JBool true)) missing_world).
  - reflexivity.
  - reflexivity.
Defined.

(** ** The store round trip *)

(** X2: when [writeMemory] returns for a document that
    [MemorySchema.parse] returned, the file holds the two-space
    serialization of that document, and [readMemory] right after it
    returns that very document and leaves the file as written. *)
Theorem writeMemory_then_readMemory (j d : json) (w w1 : world) :
  zparse MemorySchema [] (Some j) = ZOk d ->
  writeMemory d w = (Return tt, w1) ->
  memory_file w1 = Some (JSON_stringify d 2)
  /\ exists w2, readMemory w1 = (Return d, w2) /\ memory_file w2 = memory_file w1.
Proof.
  intros Hz. destruct (MemorySchema_MemoryData _ Hz) as (s & kc & -> & Hwf & Hb & Hp).
  rewrite writeMemory_run, (MemorySchema_accepts s Hwf Hb Hp).
  intros [= <-]. split; [reflexivity|]. eexists. split.
  - apply readMemory_stored with (data := JSON_stringify (document s kc) 2);
      [reflexivity | now apply stored_document_stringify].
  - reflexivity.
Qed.

Lemma writeMemory_then_readMemory_witness :
  memory_file (written (JSON_stringify (document (js "u1") [(js "Grid", JBool true)]) 2)
                 corrupt_world)
  = Some (JSON_stringify (document (js "u1") [(js "Grid", JBool true)]) 2)
  /\ exists w2,
       readMemory (written (JSON_stringify (document (js "u1") [(js "Grid", JBool true)]) 2)
                     corrupt_world)
       = (Return (document (js "u1") [(js "Grid", JBool true)]), w2)
       /\ memory_file w2
          = memory_file
              (written (JSON_stringify (document (js "u1") [(js "Grid", JBool true)]) 2)
                 corrupt_world).
Proof.
  apply (@writeMemory_then_readMemory
           (JObj [(js "note", JNull);
                  (js "known_concepts",
                   JObj [(js "Grid", JBool true); (proto_key, JBool false)]);
                  (js "user_id", JStr (js "u1"))])
           (document (js "u1") [(js "Grid", JBool true)]) corrupt_world).
  - reflexivity.
  - reflexivity.
Defined.

(** X3: a document [readMemory] returns has exactly the two fields of the
    schema, in the schema's order whatever the order in the file: a string
    [user_id], the one of the file, and [known_concepts], an object whose
    values are all booleans and whose keys are distinct.  The schema
    accepts it again unchanged.  Reading logs the read and nothing else. *)
Theorem readMemory_returns_a_document (w w' : world) (d : json) :
  readMemory w = (Return d, w') ->
  exists data j s kc,
    memory_file w = Some data /\ JSON_parse data = Some j
    /\ field j (js "user_id") = Some (JStr s)
    /\ d = JObj [(js "user_id", JStr s); (js "known_concepts", JObj kc)]
    /\ NoDup (keys kc)
    /\ (forall k v, lookup k kc = Some v -> exists b, v = JBool b)
    /\ zparse MemorySchema [] (Some d) = ZOk d
    /\ w' = logged [ReadFile memoryFilePath] w.
Proof.
  intros H. apply readMemory_returns in H as (data & Hf & Hd & ->).
  unfold stored_document in Hd.
  destruct (JSON_parse data) as [j|] eqn:Hj; [|discriminate].
  destruct (zparse MemorySchema [] (Some j)) as [d0|] eqn:Hz; [|discriminate].
  injection Hd as ->.
  destruct (MemorySchema_MemoryData _ Hz) as (s & kc & Hdoc & Hwf & Hb & Hp).
  destruct (MemorySchema_inv _ Hz) as (o & s' & kc0 & -> & Hs & _ & _ & Hdoc').
  assert (s' = s) by (unfold document in *; congruence). subst s'.
  exists data, (JObj o), s, kc. subst d.
  repeat split; auto.
  - apply Hwf.
  - intros k v Hl.
    assert (Hin : In (k, v) kc).
    { clear - Hl. induction kc as [|[k' v'] kc IH]; simpl in Hl; [discriminate|].
      destruct (text_eqb_spec k k') as [->|].
      - injection Hl as ->. now left.
      - right. auto. }
    rewrite Forall_forall in Hb. destruct (Hb _ Hin) as [b Hbv]. now exists b.
  - now apply MemorySchema_accepts.
Qed.

Lemma readMemory_returns_a_document_witness :
  exists data j s kc,
    memory_file seed_world = Some data /\ JSON_parse data = Some j
    /\ field j (js "user_id") = Some (JStr s)
    /\ document (js "u1") [] = JObj [(js "user_id", JStr s); (js "known_concepts", JObj kc)]
    /\ NoDup (keys kc)
    /\ (forall k v, lookup k kc = Some v -> exists b, v = JBool b)
    /\ zparse MemorySchema [] (Some (document (js "u1") [])) = ZOk (document (js "u1") [])
    /\ logged [ReadFile memoryFilePath] seed_world = logged [ReadFile memoryFilePath] seed_world.
Proof.
  apply (@readMemory_returns_a_document seed_world). reflexivity.
Defined.

(** ** Assignments to the same key *)











(** ** One write, from the document in the store *)

Lemma store_document_inv (w : world) (d : json) :
  store_document w = Some d ->
  exists data s kc,
    memory_file w = Some data /\ stored_document data = Some (document s kc)
    /\ d = document s kc /\ wf kc /\ Forall boolean_entry kc
    /\ has_key proto_key kc = false.
Proof.
  unfold store_document. destruct (memory_file w) as [data|]; [|discriminate].
  intros H. destruct (stored_document_MemoryData _ H) as (s & kc & -> & Hwf & Hb & Hp).
  now exists data, s, kc.
Qed.

Lemma store_document_written (s : text) (kc : obj) (w : world) :
  wf kc -> Forall boolean_entry kc ->
  store_document (written (JSON_stringify (document s kc) 2) w)
  = Some (document s (parsed kc)).
Proof.
  intros Hwf Hb. unfold store_document, written. simpl.
  now apply stored_document_stringify_parsed.
Qed.

Lemma store_document_logged (es : list event) (w : world) :
  store_document (logged es w) = store_document w.
Proof. reflexivity. Qed.








(** ** Every run of get_latest_updates *)

Lemma get_latest_updates_run (key : text) (input : json) (w : world) :
  get_latest_updates key input w
  = match provider w (updates_request key) with
    | None =>
        (Throw FetchError, logged [updates_tool_label; Fetch (updates_request key)] w)
    | Some r =>
        if ok r then
          match JSON_parse (body r) with
          | None =>
              (Throw SyntaxError,
               logged [updates_tool_label; Fetch (updates_request key)] w)
          | Some JNull =>
              (Throw TypeError,
               logged [updates_tool_label; Fetch (updates_request key)] w)
          | Some data =>
              match truthy (content_path data) with
              | None =>
                  (Throw NoAssistantMessage,
                   logged [updates_tool_label; invalid_response_label;
                           Fetch (updates_request key)] w)
              | Some message =>
                  (Return (text_content message),
                   logged [Fetch (updates_request key)] w)
              end
          end
        else
          (Throw (OpenRouterRequestFailed (status r) (statusText r) (body r)),
           logged [updates_tool_label; Fetch (updates_request key)] w)
    end.
Proof.
  destruct (provider w (updates_request key)) as [r|] eqn:Hp.
  - destruct (ok r) eqn:Hok.
    + destruct (JSON_parse (body r)) as [data|] eqn:Hj.
      * destruct data;
          try (rewrite (@get_latest_updates_answer _ _ _ _ _ Hp Hok Hj ltac:(discriminate));
               reflexivity).
        unfold get_latest_updates, try_catch, bind, fetch, bind, emit.
        cbn [provider memory_file trace]. rewrite Hp, Hok. cbn [negb ret].
        unfold JSON_parse_or_throw. rewrite Hj. reflexivity.
      * unfold get_latest_updates, try_catch, bind, fetch, bind, emit.
        cbn [provider memory_file trace]. rewrite Hp, Hok. cbn [negb ret].
        unfold JSON_parse_or_throw. rewrite Hj. reflexivity.
    + unfold get_latest_updates, try_catch, bind, fetch, bind, emit.
      cbn [provider memory_file trace]. rewrite Hp, Hok. reflexivity.
  - unfold get_latest_updates, try_catch, bind, fetch, bind, emit.
    cbn [provider memory_file trace]. rewrite Hp. reflexivity.
Qed.

Lemma invoke_updates_object (c : char) (k : text) (prompt : option text) (o : obj) :
  invoke (entries {| OPENROUTER_API_KEY := Some (c :: k); css_updater_prompt := prompt |})
    updates_name (JObj o)
  = get_latest_updates (c :: k) (JObj []).
Proof. rewrite invoke_get_latest_updates. reflexivity. Qed.

Lemma get_latest_updates_frame (key : text) (input : json) (w : world) :
  memory_file (snd (get_latest_updates key input w)) = memory_file w
  /\ provider (snd (get_latest_updates key input w)) = provider w
  /\ writes (trace (snd (get_latest_updates key input w))) = writes (trace w)
  /\ file_accesses (trace (snd (get_latest_updates key input w))) = file_accesses (trace w)
  /\ fetches (trace (snd (get_latest_updates key input w)))
     = Fetch (updates_request key) :: fetches (trace w).
Proof.
  rewrite get_latest_updates_run.
  destruct (provider w (updates_request key)) as [r|]; [|repeat split].
  destruct (ok r); [|repeat split].
  destruct (JSON_parse (body r)) as [data|]; [|repeat split].
  destruct data; try (destruct (truthy _)); repeat split.
Qed.



(** X7: when the call of [fetch] resolves with a response whose status
    is outside 200..299 and is not one of the redirect statuses of
    node-fetch (301, 302, 303, 307, 308), the invocation fails with
    UpstreamError, and the error carries the status, the status text and
    the body of the response, untouched; the body is not parsed, so it
    need not be JSON. *)
Theorem get_latest_updates_upstream_error
    (cfg : config) (srv : server) (c : char) (k : text) (o : obj)
    (w : world) (r : response) :
  start cfg = Return srv -> OPENROUTER_API_KEY cfg = Some (c :: k) ->
  provider w (updates_request (c :: k)) = Some r ->
  (status r < 200 \/ 299 < status r) ->
  ~ In (status r) [301; 302; 303; 307; 308] ->
  invoke srv updates_name (JObj o) w
  = (Throw (OpenRouterRequestFailed (status r) (statusText r) (body r)),
     logged [updates_tool_label; Fetch (updates_request (c :: k))] w)
  /\ failure_of (OpenRouterRequestFailed (status r) (statusText r) (body r))
     = Some UpstreamError.
Proof.
  intros Hs Hkey Hp Hst _. rewrite start_entries in Hs. injection Hs as <-.
  destruct cfg as [key prompt]. cbn [OPENROUTER_API_KEY] in Hkey. subst key.
  rewrite invoke_updates_object, get_latest_updates_run, Hp.
  assert (Hok : ok r = false).
  { unfold ok. apply andb_false_iff.
    destruct Hst; [left; apply N.leb_gt | right; apply N.leb_gt]; assumption. }
  rewrite Hok. split; reflexivity.
Qed.

Lemma get_latest_updates_upstream_error_witness :
  let w := replying 429 (js "Too Many Requests") (js "<html>slow down</html>") in
  invoke (entries keyed_config) updates_name (JObj []) w
  = (Throw (OpenRouterRequestFailed 429 (js "Too Many Requests") (js "<html>slow down</html>")),
     logged [updates_tool_label; Fetch (updates_request (js "sk-or-test"))] w)
  /\ failure_of (OpenRouterRequestFailed 429 (js "Too Many Requests")
                   (js "<html>slow down</html>"))
     = Some UpstreamError.
Proof.
  cbv zeta.
  apply (@get_latest_updates_upstream_error keyed_config (entries keyed_config)
           115 (js "k-or-test") []
           (replying 429 (js "Too Many Requests") (js "<html>slow down</html>"))
           {| status := 429; statusText := js "Too Many Requests";
              body := js "<html>slow down</html>" |}).
  - reflexivity.
  - reflexivity.
  - reflexivity.
  - right. reflexivity.
  - cbn [status In]. intros H. repeat destruct H as [H|H]; try discriminate H; exact H.
Defined.

(** X8: three failures of [get_latest_updates] are outside the error
    kinds of the handlers: no answer from the network, a success response
    whose body is not JSON, and a success response whose body is the JSON
    value null.  Each is logged once under the tool's label and thrown
    again as it is. *)
Theorem get_latest_updates_unclassified_errors
    (cfg : config) (srv : server) (c : char) (k : text) (o : obj)
    (w : world) (e : exn) :
  start cfg = Return srv -> OPENROUTER_API_KEY cfg = Some (c :: k) ->
  (provider w (updates_request (c :: k)) = None /\ e = FetchError)
  \/ (exists r,
        provider w (updates_request (c :: k)) = Some r /\ ok r = true
        /\ (JSON_parse (body r) = None /\ e = SyntaxError
            \/ JSON_parse (body r) = Some JNull /\ e = TypeError)) ->
  invoke srv updates_name (JObj o) w
  = (Throw e, logged [updates_tool_label; Fetch (updates_request (c :: k))] w)
  /\ failure_of e = None.
Proof.
  intros Hs Hkey H. rewrite start_entries in Hs. injection Hs as <-.
  destruct cfg as [key prompt]. cbn [OPENROUTER_API_KEY] in Hkey. subst key.
  rewrite invoke_updates_object, get_latest_updates_run.
  destruct H as [[Hp ->]|(r & Hp & Hok & [[Hj ->]|[Hj ->]])];
    rewrite Hp; try rewrite Hok; try rewrite Hj; split; reflexivity.
Qed.

Lemma get_latest_updates_unclassified_errors_witness :
  let w := answering (jq "null") in
  invoke (entries keyed_config) updates_name (JObj []) w
  = (Throw TypeError, logged [updates_tool_label; Fetch (updates_request (js "sk-or-test"))] w)
  /\ failure_of TypeError = None.
Proof.
  cbv zeta.
  apply (@get_latest_updates_unclassified_errors keyed_config (entries keyed_config)
           115 (js "k-or-test") [] (answering (jq "null")) TypeError).
  - reflexivity.
  - reflexivity.
  - right. exists {| status := 200; statusText := js "OK"; body := jq "null" |}.
    split; [reflexivity|]. split; [reflexivity|].
    right. split; [vm_compute; reflexivity | reflexivity].
Defined.

(** X9: whatever [get_latest_updates] returns is the value found at
    [choices[0].message.content] in the JSON body of a response the call
    of [fetch] resolved with, with a status in 200..299: a value that
    [!v] lets through, which need not be a string (a number passes unless
    the double it is read as is zero).  A result leaves one event behind,
    the call. *)
Theorem get_latest_updates_returns
    (cfg : config) (srv : server) (c : char) (k : text)
    (rawInput v : json) (w w' : world) :
  start cfg = Return srv -> OPENROUTER_API_KEY cfg = Some (c :: k) ->
  invoke srv updates_name rawInput w = (Return v, w') ->
  exists r data message,
    provider w (updates_request (c :: k)) = Some r
    /\ 200 <= status r <= 299
    /\ JSON_parse (body r) = Some data
    /\ content_path data = Some message
    /\ falsy (Some message) = false
    /\ v = text_content message
    /\ w' = logged [Fetch (updates_request (c :: k))] w.
Proof.
  intros Hs Hkey H. rewrite start_entries in Hs. injection Hs as <-.
  destruct cfg as [key prompt]. cbn [OPENROUTER_API_KEY] in Hkey. subst key.
  rewrite invoke_get_latest_updates in H. unfold dispatch in H.
  destruct rawInput; try discriminate H.
  cbn [zparse collect] in H. rewrite get_latest_updates_run in H.
  destruct (provider w (updates_request (c :: k))) as [r|] eqn:Hp; [|discriminate].
  destruct (ok r) eqn:Hok; [|discriminate].
  destruct (JSON_parse (body r)) as [data|] eqn:Hj; [|discriminate].
  assert (Hr : exists message,
             content_path data = Some message /\ falsy (Some message) = false
             /\ v = text_content message
             /\ w' = logged [Fetch (updates_request (c :: k))] w).
  { unfold truthy in H.
    destruct data; try discriminate H;
      (destruct (content_path _) as [m|] eqn:Hc; [|simpl in H; discriminate H]);
      (destruct (falsy (Some m)) eqn:Hf; [discriminate H|]);
      injection H as <- <-; exists m; repeat split; assumption. }
  destruct Hr as (m & Hc & Hf & -> & ->).
  exists r, data, m.
  unfold ok in Hok. apply andb_true_iff in Hok as [H1 H2].
  apply N.leb_le in H1, H2.
  split; [reflexivity|]. split; [now split|]. split; [exact Hj|].
  split; [exact Hc|]. split; [exact Hf|]. split; reflexivity.
Qed.

Lemma get_latest_updates_returns_witness :
  exists r data message,
    provider (answering (jq "{'choices':[{'message':{'content':42}}]}"))
      (updates_request (js "sk-or-test")) = Some r
    /\ 200 <= status r <= 299
    /\ JSON_parse (body r) = Some data
    /\ content_path data = Some message
    /\ falsy (Some message) = false
    /\ text_content (JNum (js "42")) = text_content message
    /\ logged [Fetch (updates_request (js "sk-or-test"))]
         (answering (jq "{'choices':[{'message':{'content':42}}]}"))
       = logged [Fetch (updates_request (js "sk-or-test"))]
           (answering (jq "{'choices':[{'message':{'content':42}}]}")).
Proof.
  apply (@get_latest_updates_returns keyed_config (entries keyed_config)
           115 (js "k-or-test") (JObj [])).
  - reflexivity.
  - reflexivity.
  - vm_compute. reflexivity.
Defined.

(** ** Every capability of the registry *)

Lemma invoke_nil (nm : text) :
  invoke [] nm = fun _ => throw (UnknownCapabilityError nm).
Proof. reflexivity. Qed.

Lemma invoke_cons (c : capability) (srv : server) (nm : text) :
  invoke (c :: srv) nm
  = if text_eqb (name c) nm then dispatch (inputContract c) (handler c)
    else invoke srv nm.
Proof.
  unfold invoke, registered. cbn [find].
  destruct (text_eqb (name c) nm); reflexivity.
Qed.

(** What holds of every entry the registration code can add, and of the
    answer to an unknown name, holds of every invocation. *)
Lemma invoke_entries_ind (P : text -> (json -> M json) -> Prop) (cfg : config) :
  (forall nm, P nm (fun _ => throw (UnknownCapabilityError nm))) ->
  (forall promptText,
      P (js "css-tutor-guidance") (dispatch (ZObject []) (css_tutor_guidance promptText))) ->
  P (js "css_knowledge_memory")
    (dispatch ZString (fun input => css_knowledge_memory (as_text (Some input)))) ->
  P (js "read_from_memory") (dispatch (ZObject []) read_from_memory) ->
  P (js "write_to_memory") (dispatch (ZObject writeMemoryInputShape) write_to_memory) ->
  (forall c k, P updates_name (dispatch (ZObject []) (get_latest_updates (c :: k)))) ->
  forall nm, P nm (invoke (entries cfg) nm).
Proof.
  intros Hu Hp Hr Hread Hwrite Hupd nm.
  destruct cfg as [[[|c k]|] [p|]];
    repeat
      (match goal with
       | |- context [invoke ?s nm] =>
           let s' := eval hnf in s in
           change s with s'; first [rewrite invoke_cons | rewrite invoke_nil]
       end;
       try match goal with
         | |- context [text_eqb ?a nm] =>
             destruct (text_eqb_spec a nm) as [<-|_]
         end);
    first [apply Hu | apply Hp | exact Hr | exact Hread | exact Hwrite | apply Hupd].
Qed.

(** ** What the handlers leave of the store *)

Lemma same_store_refl (w : world) : same_store w w.
Proof. now split. Qed.

Lemma same_store_trans (w1 w2 w3 : world) :
  same_store w1 w2 -> same_store w2 w3 -> same_store w1 w3.
Proof. intros [A B] [C D]. split; congruence. Qed.

Lemma same_store_logged (es : list event) (w : world) :
  writes es = [] -> same_store w (logged es w).
Proof. intros H. split; [reflexivity | now apply writes_logged]. Qed.

Lemma store_document_same (w w' : world) :
  same_store w w' -> store_document w' = store_document w.
Proof. intros [H _]. unfold store_document. now rewrite H. Qed.

Lemma readMemory_same_store (w : world) : same_store w (snd (readMemory w)).
Proof. destruct (readMemory_frame w) as (A & _ & B & _). now split. Qed.

Lemma dispatch_same_store (contract : schema) (h : json -> M json) :
  (forall a w, same_store w (snd (h a w))) ->
  forall rawInput w, same_store w (snd (dispatch contract h rawInput w)).
Proof.
  intros H rawInput w. unfold dispatch.
  destruct (zparse contract [] (Some rawInput)); [apply H | apply same_store_refl].
Qed.

Lemma read_from_memory_same_store (input : json) (w : world) :
  same_store w (snd (read_from_memory input w)).
Proof.
  rewrite read_from_memory_run. pose proof (readMemory_same_store w) as H.
  destruct (readMemory w) as [[d|e] w1]; [exact H|].
  eapply same_store_trans; [exact H | now apply same_store_logged].
Qed.

Lemma css_knowledge_memory_same_store (uri : text) (w : world) :
  same_store w (snd (css_knowledge_memory uri w)).
Proof.
  rewrite css_knowledge_memory_run.
  pose proof (readMemory_same_store (logged [resource_request uri] w)) as H.
  assert (H0 : same_store w (logged [resource_request uri] w))
    by now apply same_store_logged.
  destruct (readMemory (logged [resource_request uri] w)) as [[d|e] w1].
  - eapply same_store_trans; [exact H0 | exact H].
  - eapply same_store_trans; [exact H0|].
    eapply same_store_trans; [exact H | now apply same_store_logged].
Qed.

Lemma get_latest_updates_same_store (key : text) (input : json) (w : world) :
  same_store w (snd (get_latest_updates key input w)).
Proof. destruct (get_latest_updates_frame key input w) as (A & _ & B & _). now split. Qed.

Lemma write_to_memory_throws (args : json) (w : world) (e : exn) :
  fst (write_to_memory args w) = Throw e -> same_store w (snd (write_to_memory args w)).
Proof.
  destruct (store_document w) as [d|] eqn:Hd.
  - destruct (store_document_inv _ Hd) as (data & s & kc & Hf & Hs & _ & Hwf & Hb & _).
    rewrite (write_to_memory_stored w args Hf Hs Hwf Hb). discriminate.
  - destruct (write_to_memory_no_document args w Hd) as (cause & w' & -> & Hf & Hw & _).
    intros _. now split.
Qed.

(** X10: among the capabilities of the registry only [write_to_memory]
    changes the store, and only when it succeeds: an invocation under any
    other name, known or not, and any invocation that fails, leaves the
    backing file with the content it had and issues no write. *)
Theorem store_changes_only_by_write
    (cfg : config) (srv : server) (nm : text) (rawInput : json)
    (w w' : world) (r : outcome json) :
  start cfg = Return srv ->
  invoke srv nm rawInput w = (r, w') ->
  (nm <> js "write_to_memory" \/ exists e, r = Throw e) ->
  memory_file w' = memory_file w /\ writes (trace w') = writes (trace w).
Proof.
  intros Hs. rewrite start_entries in Hs. injection Hs as <-.
  revert rawInput w w' r.
  apply (invoke_entries_ind
           (fun nm h =>
              forall rawInput w w' r, h rawInput w = (r, w') ->
              nm <> js "write_to_memory" \/ (exists e, r = Throw e) ->
              same_store w w')).
  - intros nm0 rawInput w w' r [= <- <-] _. apply same_store_refl.
  - intros p rawInput w w' r H _.
    change w' with (snd (r, w')). rewrite <- H.
    apply dispatch_same_store. intros a w0. apply same_store_refl.
  - intros rawInput w w' r H _.
    change w' with (snd (r, w')). rewrite <- H.
    apply dispatch_same_store. intros a w0. apply css_knowledge_memory_same_store.
  - intros rawInput w w' r H _.
    change w' with (snd (r, w')). rewrite <- H.
    apply dispatch_same_store. apply read_from_memory_same_store.
  - intros rawInput w w' r H [Hn|[e ->]]; [now elim Hn|].
    unfold dispatch in H.
    destruct (zparse (ZObject writeMemoryInputShape) [] (Some rawInput)) as [args|issues].
    + change w' with (snd (Throw e : outcome json, w')). rewrite <- H.
      apply write_to_memory_throws with (e := e). now rewrite H.
    + injection H as _ <-. apply same_store_refl.
  - intros c k rawInput w w' r H _.
    change w' with (snd (r, w')). rewrite <- H.
    apply dispatch_same_store. apply get_latest_updates_same_store.
Qed.

Lemma store_changes_only_by_write_witness :
  memory_file (snd (invoke (entries full_config) (js "css_knowledge_memory")
                      (JStr (js "memory://css_knowledge_memory/")) seed_world))
  = memory_file seed_world
  /\ writes (trace (snd (invoke (entries full_config) (js "css_knowledge_memory")
                           (JStr (js "memory://css_knowledge_memory/")) seed_world)))
     = writes (trace seed_world).
Proof.
  apply (@store_changes_only_by_write full_config (entries full_config)
           (js "css_knowledge_memory") (JStr (js "memory://css_knowledge_memory/"))
           seed_world _
           (fst (invoke (entries full_config) (js "css_knowledge_memory")
                   (JStr (js "memory://css_knowledge_memory/")) seed_world))).
  - reflexivity.
  - apply surjective_pairing.
  - left. discriminate.
Defined.

(** ** Sessions *)

Lemma extends_refl (d : json) : extends d d.
Proof. now split. Qed.

Lemma extends_trans (d1 d2 d3 : json) : extends d1 d2 -> extends d2 d3 -> extends d1 d3.
Proof. intros [A B] [C D]. split; [congruence | auto]. Qed.

Lemma extends_obj_set (s concept : text) (v : json) (kc : obj) :
  extends (document s kc) (document s (obj_set concept v kc)).
Proof.
  split; [reflexivity|]. intros k. rewrite !known_concept_document.
  destruct (text_eqb_spec k concept) as [->|Hne].
  - rewrite lookup_obj_set_same. discriminate.
  - now rewrite lookup_obj_set_other.
Qed.

Lemma session_cons (srv : server) (call : text * json) (calls : list (text * json))
    (w : world) :
  session srv (call :: calls) w
  = session srv calls (snd (invoke srv (fst call) (snd call) w)).
Proof. reflexivity. Qed.

Lemma invoke_extends (cfg : config) (nm : text) (rawInput : json) (w : world) (d : json) :
  store_document w = Some d ->
  exists d', store_document (snd (invoke (entries cfg) nm rawInput w)) = Some d'
             /\ extends d d'.
Proof.
  revert rawInput w d.
  assert (Hsame : forall h : json -> M json,
             (forall rawInput w, same_store w (snd (h rawInput w))) ->
             forall rawInput w d, store_document w = Some d ->
             exists d', store_document (snd (h rawInput w)) = Some d' /\ extends d d').
  { intros h H rawInput w d Hd. exists d.
    rewrite (store_document_same (H rawInput w)). split; [exact Hd | apply extends_refl]. }
  apply (invoke_entries_ind
           (fun _ h =>
              forall rawInput w d, store_document w = Some d ->
              exists d', store_document (snd (h rawInput w)) = Some d' /\ extends d d')).
  - intros nm0. apply Hsame. intros rawInput w. apply same_store_refl.
  - intros p. apply Hsame. apply dispatch_same_store. intros a w. apply same_store_refl.
  - apply Hsame. apply dispatch_same_store. intros a w.
    apply css_knowledge_memory_same_store.
  - apply Hsame. apply dispatch_same_store. apply read_from_memory_same_store.
  - intros rawInput w d Hd. unfold dispatch.
    destruct (zparse (ZObject writeMemoryInputShape) [] (Some rawInput)) as [args|issues].
    + destruct (store_document_inv _ Hd) as (data & s & kc & Hf & Hs & -> & Hwf & Hb & Hp).
      rewrite (write_to_memory_stored w args Hf Hs Hwf Hb). cbn [snd].
      eexists. split.
      * apply store_document_written; [now apply wf_obj_set | now apply boolean_obj_set].
      * rewrite parsed_obj_set by exact Hp.
        destruct (text_eqb _ proto_key); [apply extends_refl | apply extends_obj_set].
    + exists d. split; [exact Hd | apply extends_refl].
  - intros c k. apply Hsame. apply dispatch_same_store. apply get_latest_updates_same_store.
Qed.

Lemma invoke_no_document (cfg : config) (nm : text) (rawInput : json) (w : world) :
  store_document w = None ->
  same_store w (snd (invoke (entries cfg) nm rawInput w)).
Proof.
  revert rawInput w.
  apply (invoke_entries_ind
           (fun _ h => forall rawInput w, store_document w = None ->
                                          same_store w (snd (h rawInput w)))).
  - intros nm0 rawInput w _. apply same_store_refl.
  - intros p rawInput w _. apply dispatch_same_store. intros a w0. apply same_store_refl.
  - intros rawInput w _. apply dispatch_same_store. intros a w0.
    apply css_knowledge_memory_same_store.
  - intros rawInput w _. apply dispatch_same_store. apply read_from_memory_same_store.
  - intros rawInput w Hd. unfold dispatch.
    destruct (zparse (ZObject writeMemoryInputShape) [] (Some rawInput)) as [args|issues].
    + destruct (write_to_memory_no_document args w Hd) as (cause & w' & -> & Hf & Hw & _).
      now split.
    + apply same_store_refl.
  - intros c k rawInput w _. apply dispatch_same_store. apply get_latest_updates_same_store.
Qed.

(** X11: no sequence of invocations, under any names and with any
    inputs, damages a valid store: after the session the backing file
    still parses to a document of the schema, and that document, the one
    [readMemory] returns, has the [user_id] of the document read before the
    session and an entry for every concept that had one in it. *)
Theorem session_keeps_the_document
    (cfg : config) (srv : server) (calls : list (text * json)) (w : world) (d : json) :
  start cfg = Return srv ->
  store_document w = Some d ->
  exists d',
    store_document (session srv calls w) = Some d'
    /\ field d' (js "user_id") = field d (js "user_id")
    /\ forall concept,
         known_concept d concept <> None -> known_concept d' concept <> None.
Proof.
  intros Hs. rewrite start_entries in Hs. injection Hs as <-.
  assert (H : forall calls w d, store_document w = Some d ->
                exists d', store_document (session (entries cfg) calls w) = Some d'
                           /\ extends d d').
  { clear. intros calls. induction calls as [|[nm rawInput] calls IH]; intros w d Hd.
    - exists d. split; [exact Hd | apply extends_refl].
    - rewrite session_cons. cbn [fst snd].
      destruct (invoke_extends cfg nm rawInput w Hd) as (d1 & Hd1 & E1).
      destruct (IH _ _ Hd1) as (d' & Hd' & E').
      exists d'. split; [exact Hd' | now apply extends_trans with d1]. }
  intros Hd. destruct (H calls w d Hd) as (d' & Hd' & E1 & E2).
  exists d'. now repeat split.
Qed.

Lemma session_keeps_the_document_witness :
  exists d',
    store_document
      (session (entries full_config)
         [(js "write_to_memory", write_args (JStr (js "Grid")) (JBool true));
          (js "no_such_tool", JNull);
          (js "write_to_memory", write_args (JStr (js "Grid")) (JStr (js "yes")));
          (js "read_from_memory", JObj [])]
         seed_world) = Some d'
    /\ field d' (js "user_id") = field (document (js "u1") []) (js "user_id")
    /\ forall concept,
         known_concept (document (js "u1") []) concept <> None ->
         known_concept d' concept <> None.
Proof.
  apply (@session_keeps_the_document full_config (entries full_config)); reflexivity.
Defined.

(** X12: no sequence of invocations creates or repairs the store: when
    the backing file is missing, or holds no valid document, it is in the
    same condition after any session, and nothing was written. *)
Theorem session_never_repairs
    (cfg : config) (srv : server) (calls : list (text * json)) (w : world) :
  start cfg = Return srv ->
  store_document w = None ->
  memory_file (session srv calls w) = memory_file w
  /\ writes (trace (session srv calls w)) = writes (trace w).
Proof.
  intros Hs. rewrite start_entries in Hs. injection Hs as <-.
  revert w. induction calls as [|[nm rawInput] calls IH]; intros w Hd.
  - now split.
  - rewrite session_cons. cbn [fst snd].
    pose proof (invoke_no_document cfg nm rawInput w Hd) as Hsame.
    assert (Hd1 : store_document (snd (invoke (entries cfg) nm rawInput w)) = None)
      by now rewrite (store_document_same Hsame).
    destruct (IH _ Hd1) as [A B]. destruct Hsame as [C D]. split; congruence.
Qed.

Lemma session_never_repairs_witness :
  memory_file
    (session (entries bare_config)
       [(js "write_to_memory", write_args (JStr (js "Grid")) (JBool true));
        (js "read_from_memory", JObj [])]
       corrupt_world) = memory_file corrupt_world
  /\ writes
       (trace
          (session (entries bare_config)
             [(js "write_to_memory", write_args (JStr (js "Grid")) (JBool true));
              (js "read_from_memory", JObj [])]
             corrupt_world)) = writes (trace corrupt_world).
Proof.
  apply (@session_never_repairs bare_config (entries bare_config)).
  - reflexivity.
  - vm_compute. reflexivity.
Defined.

(** ** Reading again *)




(** ** The input of write_to_memory *)

Lemma zparse_write_shape (o : obj) :
  zparse (ZObject writeMemoryInputShape) [] (Some (JObj o))
  = collect [(js "concept", zparse ZString [js "concept"] (lookup (js "concept") o));
             (js "known", zparse ZBoolean [js "known"] (lookup (js "known") o))] [] [].
Proof. reflexivity. Qed.

(** X14: [write_to_memory] reads two fields of its input and no other:
    two inputs that agree on [concept] and on [known] are treated alike in
    every state, accepted or rejected, whatever else they carry and in
    whatever order. *)
Theorem write_to_memory_reads_two_fields
    (cfg : config) (srv : server) (o1 o2 : obj) (w : world) :
  start cfg = Return srv ->
  lookup (js "concept") o1 = lookup (js "concept") o2 ->
  lookup (js "known") o1 = lookup (js "known") o2 ->
  invoke srv (js "write_to_memory") (JObj o1) w
  = invoke srv (js "write_to_memory") (JObj o2) w.
Proof.
  intros Hs Hc Hk. rewrite start_entries in Hs. injection Hs as <-.
  rewrite !invoke_write_to_memory. unfold dispatch.
  now rewrite !zparse_write_shape, Hc, Hk.
Qed.

Lemma write_to_memory_reads_two_fields_witness :
  invoke (entries bare_config) (js "write_to_memory")
    (JObj [(js "known", JBool true); (js "user_id", JStr (js "mallory"));
           (js "concept", JStr (js "Grid"))]) seed_world
  = invoke (entries bare_config) (js "write_to_memory")
      (JObj [(js "concept", JStr (js "Grid")); (js "known", JBool true)]) seed_world.
Proof.
  apply (@write_to_memory_reads_two_fields bare_config (entries bare_config));
    reflexivity.
Defined.

(** ** Start-up *)

(** X15: start-up succeeds for every configuration, so no registration
    meets a name already taken; the names of the registry are distinct and
    come in the order prompt, resource, [read_from_memory],
    [write_to_memory], [get_latest_updates], the first only when the
    prompt file could be read and the last only when the credential is a
    non-empty string.  The content of the file and of the credential has
    no part in the catalogue. *)
Theorem start_catalogue (cfg : config) :
  exists srv,
    start cfg = Return srv
    /\ list_capabilities srv
       = match css_updater_prompt cfg with
         | Some _ => [(js "css-tutor-guidance", Guidance)]
         | None => []
         end
         ++ [(js "css_knowledge_memory", Resource);
             (js "read_from_memory", Action);
             (js "write_to_memory", Action)]
         ++ match OPENROUTER_API_KEY cfg with
            | Some (_ :: _) => [(updates_name, Action)]
            | _ => []
            end
    /\ NoDup (List.map fst (list_capabilities srv)).
Proof.
  exists (entries cfg). split; [apply start_entries|].
  assert (H : list_capabilities (entries cfg)
              = match css_updater_prompt cfg with
                | Some _ => [(js "css-tutor-guidance", Guidance)]
                | None => []
                end
                ++ [(js "css_knowledge_memory", Resource);
                    (js "read_from_memory", Action);
                    (js "write_to_memory", Action)]
                ++ match OPENROUTER_API_KEY cfg with
                   | Some (_ :: _) => [(updates_name, Action)]
                   | _ => []
                   end)
    by (destruct cfg as [[[|c k]|] [p|]]; reflexivity).
  split; [exact H|]. rewrite H.
  destruct cfg as [[[|c k]|] [p|]]; cbn [css_updater_prompt OPENROUTER_API_KEY app List.map fst];
    repeat (constructor; [cbn [In]; intros Hin; repeat destruct Hin as [Hin|Hin];
                           try discriminate Hin; exact Hin|]);
    constructor.
Qed.

(** X16: the prompt is the text of the prompt file as start-up found it,
    given back as one assistant message in every state and for every
    input object, with no effect; when the file could not be read the
    prompt does not exist, and asking for it is an UnknownCapability
    failure while the rest of the registry is there. *)
Theorem css_tutor_guidance_is_static
    (cfg : config) (srv : server) (o : obj) (w : world) :
  start cfg = Return srv ->
  invoke srv (js "css-tutor-guidance") (JObj o) w
  = match css_updater_prompt cfg with
    | Some promptText =>
        (Return (JObj [(js "messages",
                        JArr [JObj [(js "role", JStr (js "assistant"));
                                    (js "content",
                                     JObj [(js "type", JStr (js "text"));
                                           (js "text", JStr promptText)])]])]),
         w)
    | None => (Throw (UnknownCapabilityError (js "css-tutor-guidance")), w)
    end
  /\ failure_of (UnknownCapabilityError (js "css-tutor-guidance")) = Some UnknownCapability
  /\ registered (js "read_from_memory") srv <> None
  /\ registered (js "write_to_memory") srv <> None
  /\ registered (js "css_knowledge_memory") srv <> None.
Proof.
  intros Hs. rewrite start_entries in Hs. injection Hs as <-.
  destruct cfg as [[[|c k]|] [p|]]; repeat split; discriminate.
Qed.

Lemma css_tutor_guidance_is_static_witness :
  invoke (entries full_config) (js "css-tutor-guidance") (JObj []) corrupt_world
  = (Return (JObj [(js "messages",
                    JArr [JObj [(js "role", JStr (js "assistant"));
                                (js "content",
                                 JObj [(js "type", JStr (js "text"));
                                       (js "text", JStr (js "Call get_latest_updates first."))])]])]),
     corrupt_world)
  /\ failure_of (UnknownCapabilityError (js "css-tutor-guidance")) = Some UnknownCapability
  /\ registered (js "read_from_memory") (entries full_config) <> None
  /\ registered (js "write_to_memory") (entries full_config) <> None
  /\ registered (js "css_knowledge_memory") (entries full_config) <> None.
Proof.
  apply (@css_tutor_guidance_is_static full_config (entries full_config) [] corrupt_world).
  reflexivity.
Defined.
